(** * lambda-local: the invocation engine of [src/lambdalocal.ts]

    A shallow embedding of the TypeScript module: JavaScript values and
    their truthiness, the host functions the module calls ([JSON.parse],
    [JSON.stringify], [path.basename], [path.extname]), the staging of the
    process environment, the invocation context, the scheduler
    ([_executeSync], [execute]) and the HTTP front end ([watch]). *)

From Stdlib Require Import ZArith Ascii String List Lia Bool.
From stdpp Require Import base option list strings pretty gmap fin_maps.

Set Warnings "-register-all".
Local Open Scope string_scope.
Local Open Scope list_scope.
Local Open Scope Z_scope.

(** ** JavaScript values *)

Module JS.

(** The error classes that occur in the module and in the specification. *)
Inductive error_kind :=
| SyntaxError
| TypeError
| TimeoutError
| LoadError
| PlainError.

(** A JavaScript value, as far as the module looks at values: events,
    results and errors.  A number is written as the decimal [m * 10^e] of
    its literal and stands for the double nearest to it; of the rounding,
    the module can observe the rounding to zero only ([rounds_to_zero]). *)
Inductive jsval :=
| VUndefined
| VNull
| VBool (b : bool)
| VNum (m e : Z)
| VStr (s : string)
| VArr (items : list jsval)
| VObj (fields : list (string * jsval))
| VError (kind : error_kind) (message : string).

(** Whether the double nearest to [m * 10^e] is zero: the decimal is
    zero, or its magnitude is at most [2^-1075], half of the least
    positive double [2^-1074] (at exactly the half, the tie goes to the
    even neighbour, which is zero). *)
Definition rounds_to_zero (m e : Z) : bool :=
  (m =? 0) || ((e <? 0) && (Z.abs m * 2 ^ 1075 <=? 10 ^ (- e))).

(** ToBoolean: [undefined], [null], [false], a zero number and the empty
    string are falsy, every object is truthy. *)
Definition truthy (v : jsval) : bool :=
  match v with
  | VUndefined | VNull => false
  | VBool b => b
  | VNum m e => negb (rounds_to_zero m e)
  | VStr s => negb (String.eqb s "")
  | VArr _ | VObj _ | VError _ _ => true
  end.

(** Truthiness of an optional string such as an environment variable or an
    option of [opts]: absent ([undefined]) and empty are falsy. *)
Definition truthy_str (o : option string) : bool :=
  match o with
  | Some s => negb (String.eqb s "")
  | None => false
  end.

(** [a || b] on optional strings. *)
Definition or_str (a b : option string) : option string :=
  if truthy_str a then a else b.

(** The last binding of a key wins, as in an object built by successive
    assignments. *)
Fixpoint assoc_get {A} (k : string) (l : list (string * A)) : option A :=
  match l with
  | [] => None
  | (k', v) :: rest =>
      match assoc_get k rest with
      | Some w => Some w
      | None => if String.eqb k k' then Some v else None
      end
  end.

(** [o[k] = v]: an existing key keeps its place, a new key goes last. *)
Fixpoint assoc_set {A} (k : string) (v : A) (l : list (string * A))
  : list (string * A) :=
  match l with
  | [] => [(k, v)]
  | (k', w) :: rest =>
      if String.eqb k k' then (k', v) :: rest else (k', w) :: assoc_set k v rest
  end.

(** Reading a property: [undefined] and [null] have none and the read
    throws a TypeError ([None]); a missing property reads [undefined].
    Of the built-in properties only those of plain data matter here, and
    none of them is called [event] or [then]. *)
Definition get_prop (v : jsval) (k : string) : option jsval :=
  match v with
  | VUndefined | VNull => None
  | VObj fields => Some (default VUndefined (assoc_get k fields))
  | _ => Some VUndefined
  end.

End JS.
Export JS.

(** ** The host's JSON functions

    [JSON.parse] and [JSON.stringify] belong to the hosting runtime.  The
    parser follows the JSON grammar (ECMA-404); an escape [\uXXXX] is
    stored as the UTF-8 bytes of its code unit. *)

Module JSON.

Definition dquote : ascii := "034"%char.
Definition backslash : ascii := "092"%char.

Definition is_ws (c : ascii) : bool :=
  match nat_of_ascii c with
  | 32%nat | 9%nat | 10%nat | 13%nat => true
  | _ => false
  end.

Fixpoint skip_ws (s : list ascii) : list ascii :=
  match s with
  | c :: rest => if is_ws c then skip_ws rest else s
  | [] => []
  end.

Definition digit_of (c : ascii) : option Z :=
  let n := Z.of_nat (nat_of_ascii c) in
  if (48 <=? n) && (n <=? 57) then Some (n - 48) else None.

Definition hex_of (c : ascii) : option Z :=
  let n := Z.of_nat (nat_of_ascii c) in
  if (48 <=? n) && (n <=? 57) then Some (n - 48)
  else if (65 <=? n) && (n <=? 70) then Some (n - 55)
  else if (97 <=? n) && (n <=? 102) then Some (n - 87)
  else None.

(** A run of digits: its value, its length and the rest of the input. *)
Fixpoint digits (acc : Z) (len : nat) (s : list ascii) : Z * nat * list ascii :=
  match s with
  | c :: rest =>
      match digit_of c with
      | Some d => digits (10 * acc + d) (S len) rest
      | None => (acc, len, s)
      end
  | [] => (acc, len, s)
  end.

(** int: [0] or a digit run without a leading zero. *)
Definition parse_int (s : list ascii) : option (Z * list ascii) :=
  match s with
  | "0"%char :: rest => Some (0, rest)
  | _ => match digits 0 0 s with
         | (_, O, _) => None
         | (n, _, rest) => Some (n, rest)
         end
  end.

(** frac: nothing, or a dot and at least one digit; the mantissa is
    extended by the fraction's digits. *)
Definition parse_frac (m : Z) (s : list ascii) : option (Z * Z * list ascii) :=
  match s with
  | "."%char :: rest =>
      match digits m 0 rest with
      | (_, O, _) => None
      | (m', len, rest') => Some (m', - Z.of_nat len, rest')
      end
  | _ => Some (m, 0, s)
  end.

(** exp: nothing, or [e]/[E], an optional sign and at least one digit. *)
Definition parse_exp (s : list ascii) : option (Z * list ascii) :=
  let unsigned (neg : bool) (r : list ascii) :=
    match digits 0 0 r with
    | (_, O, _) => None
    | (n, _, rest) => Some (if neg then - n else n, rest)
    end in
  match s with
  | c :: rest =>
      if (Ascii.eqb c "e" || Ascii.eqb c "E")%bool then
        match rest with
        | "-"%char :: r => unsigned true r
        | "+"%char :: r => unsigned false r
        | _ => unsigned false rest
        end
      else Some (0, s)
  | [] => Some (0, s)
  end.

Definition parse_number (s : list ascii) : option (jsval * list ascii) :=
  let '(neg, s1) := match s with
                    | "-"%char :: r => (true, r)
                    | _ => (false, s)
                    end in
  '(i, s2) ← parse_int s1;
  '(m, e1, s3) ← parse_frac i s2;
  '(e2, s4) ← parse_exp s3;
  Some (VNum (if neg then - m else m) (e1 + e2), s4).

(** The UTF-8 bytes of a code unit below 65536. *)
Definition utf8 (n : Z) : list ascii :=
  let byte (z : Z) := ascii_of_nat (Z.to_nat z) in
  if n <? 128 then [byte n]
  else if n <? 2048 then [byte (192 + n / 64); byte (128 + n mod 64)]
  else [byte (224 + n / 4096); byte (128 + (n / 64) mod 64); byte (128 + n mod 64)].

Definition parse_escape (s : list ascii) : option (list ascii * list ascii) :=
  match s with
  | "u"%char :: a :: b :: c :: d :: rest =>
      a ← hex_of a; b ← hex_of b; c ← hex_of c; d ← hex_of d;
      Some (utf8 (4096 * a + 256 * b + 16 * c + d), rest)
  | c :: rest =>
      if Ascii.eqb c dquote then Some ([dquote], rest)
      else if Ascii.eqb c backslash then Some ([backslash], rest)
      else if Ascii.eqb c "/" then Some (["/"%char], rest)
      else if Ascii.eqb c "b" then Some (["008"%char], rest)
      else if Ascii.eqb c "f" then Some (["012"%char], rest)
      else if Ascii.eqb c "n" then Some (["010"%char], rest)
      else if Ascii.eqb c "r" then Some (["013"%char], rest)
      else if Ascii.eqb c "t" then Some (["009"%char], rest)
      else None
  | [] => None
  end.

(** The characters of a string literal after its opening quote. *)
Fixpoint parse_chars (fuel : nat) (acc : list ascii) (s : list ascii)
  : option (string * list ascii) :=
  match fuel with
  | O => None
  | S fuel =>
      match s with
      | [] => None
      | c :: rest =>
          if Ascii.eqb c dquote then Some (string_of_list_ascii (rev acc), rest)
          else if Ascii.eqb c backslash then
            '(bytes, rest') ← parse_escape rest;
            parse_chars fuel (rev_append bytes acc) rest'
          else if (nat_of_ascii c <? 32)%nat then None
          else parse_chars fuel (c :: acc) rest
      end
  end.

Definition starts_with (p : string) (s : list ascii) : option (list ascii) :=
  let l := list_ascii_of_string p in
  if decide (take (length l) s = l) then Some (drop (length l) s) else None.

Fixpoint parse_value (fuel : nat) (s : list ascii) : option (jsval * list ascii) :=
  match fuel with
  | O => None
  | S fuel =>
      match skip_ws s with
      | [] => None
      | c :: rest =>
          if Ascii.eqb c dquote then
            '(str, r) ← parse_chars (S (length rest)) [] rest; Some (VStr str, r)
          else if Ascii.eqb c "[" then
            match skip_ws rest with
            | "]"%char :: r => Some (VArr [], r)
            | r => parse_elements fuel [] r
            end
          else if Ascii.eqb c "{" then
            match skip_ws rest with
            | "}"%char :: r => Some (VObj [], r)
            | r => parse_members fuel [] r
            end
          else if Ascii.eqb c "n" then r ← starts_with "ull" rest; Some (VNull, r)
          else if Ascii.eqb c "t" then r ← starts_with "rue" rest; Some (VBool true, r)
          else if Ascii.eqb c "f" then r ← starts_with "alse" rest; Some (VBool false, r)
          else parse_number (c :: rest)
      end
  end
with parse_elements (fuel : nat) (acc : list jsval) (s : list ascii)
  : option (jsval * list ascii) :=
  match fuel with
  | O => None
  | S fuel =>
      '(v, r) ← parse_value fuel s;
      match skip_ws r with
      | ","%char :: r' => parse_elements fuel (acc ++ [v]) r'
      | "]"%char :: r' => Some (VArr (acc ++ [v]), r')
      | _ => None
      end
  end
with parse_members (fuel : nat) (acc : list (string * jsval)) (s : list ascii)
  : option (jsval * list ascii) :=
  match fuel with
  | O => None
  | S fuel =>
      match skip_ws s with
      | c :: rest =>
          if Ascii.eqb c dquote then
            '(key, r) ← parse_chars (S (length rest)) [] rest;
            match skip_ws r with
            | ":"%char :: r' =>
                '(v, r'') ← parse_value fuel r';
                match skip_ws r'' with
                | ","%char :: r3 => parse_members fuel (assoc_set key v acc) r3
                | "}"%char :: r3 => Some (VObj (assoc_set key v acc), r3)
                | _ => None
                end
            | _ => None
            end
          else None
      | [] => None
      end
  end.

(** [JSON.parse]: one value, surrounded by white space only; [None]
    stands for the SyntaxError the host throws. *)
Definition parse (text : string) : option jsval :=
  let s := list_ascii_of_string text in
  '(v, r) ← parse_value (2 * length s + 2) s;
  match skip_ws r with
  | [] => Some v
  | _ => None
  end.

(** Serialisation.  A string is quoted with the escapes of the
    grammar. *)
Definition hex_digit (n : Z) : ascii :=
  ascii_of_nat (Z.to_nat (if n <? 10 then 48 + n else 87 + n)).

Definition escape_char (c : ascii) : list ascii :=
  let n := Z.of_nat (nat_of_ascii c) in
  if Ascii.eqb c dquote then [backslash; dquote]
  else if Ascii.eqb c backslash then [backslash; backslash]
  else if n =? 8 then [backslash; "b"%char]
  else if n =? 12 then [backslash; "f"%char]
  else if n =? 10 then [backslash; "n"%char]
  else if n =? 13 then [backslash; "r"%char]
  else if n =? 9 then [backslash; "t"%char]
  else if n <? 32 then
    [backslash; "u"%char; "0"%char; "0"%char; hex_digit (n / 16); hex_digit (n mod 16)]
  else [c].

Definition quote (s : string) : string :=
  string_of_list_ascii
    (dquote :: flat_map escape_char (list_ascii_of_string s) ++ [dquote]).

(** Trailing zeros of the mantissa move into the exponent as long as the
    exponent is negative. *)
Fixpoint normalise (fuel : nat) (m e : Z) : Z * Z :=
  match fuel with
  | O => (m, e)
  | S fuel =>
      if (e <? 0) && (m mod 10 =? 0) then normalise fuel (m / 10) (e + 1) else (m, e)
  end.

Definition zeros (n : Z) : string :=
  string_of_list_ascii (replicate (Z.to_nat n) "0"%char).

(** A number in plain decimal notation, zero as [0]; the host prints the
    shortest decimal of the double and switches to exponent notation for
    very large and very small magnitudes, which is not modelled. *)
Definition number_to_string (m e : Z) : string :=
  if rounds_to_zero m e then "0"
  else
    let '(m, e) := normalise (Z.to_nat (- e)) m e in
    let sign := if m <? 0 then "-" else "" in
    let ds := pretty (Z.abs m) in
    let n := Z.of_nat (String.length ds) in
    if 0 <=? e then sign +:+ ds +:+ zeros e
    else if - e <? n then
      sign +:+ substring 0 (Z.to_nat (n + e)) ds +:+ "."
           +:+ substring (Z.to_nat (n + e)) (Z.to_nat (- e)) ds
    else sign +:+ "0." +:+ zeros (- e - n) +:+ ds.

Definition join (sep : string) (l : list string) : string :=
  match l with
  | [] => ""
  | x :: rest => fold_left (fun acc y => acc +:+ sep +:+ y) rest x
  end.

(** [JSON.stringify]: [None] stands for the result [undefined]; an
    undefined array item is written [null], an undefined property is left
    out, an Error object has no enumerable property. *)
Fixpoint stringify (v : jsval) : option string :=
  match v with
  | VUndefined => None
  | VNull => Some "null"
  | VBool b => Some (if b then "true" else "false")
  | VNum m e => Some (number_to_string m e)
  | VStr s => Some (quote s)
  | VArr items =>
      Some ("[" +:+ join "," (map (fun x => default "null" (stringify x)) items) +:+ "]")
  | VObj fields =>
      let fix members (l : list (string * jsval)) : list string :=
        match l with
        | [] => []
        | (k, x) :: rest =>
            match stringify x with
            | Some sx => (quote k +:+ ":" +:+ sx) :: members rest
            | None => members rest
            end
        end in
      Some ("{" +:+ join "," (members fields) +:+ "}")
  | VError _ _ => Some "{}"
  end.

(** [JSON.stringify] of an object literal, which is always a string. *)
Definition stringify_object (fields : list (string * jsval)) : string :=
  default "{}" (stringify (VObj fields)).

End JSON.

(** ** The host's path functions (POSIX flavour) *)

Module Path.

Definition slash : ascii := "/"%char.
Definition is_slash (c : ascii) : bool := Ascii.eqb c slash.
Definition is_dot (c : ascii) : bool := Ascii.eqb c ".".

Fixpoint drop_while {A} (f : A → bool) (l : list A) : list A :=
  match l with
  | x :: rest => if f x then drop_while f rest else l
  | [] => []
  end.

Fixpoint take_while {A} (f : A → bool) (l : list A) : list A :=
  match l with
  | x :: rest => if f x then x :: take_while f rest else []
  | [] => []
  end.

(** The last portion of a path, read from its end: trailing slashes are
    skipped, then everything up to the next slash is taken. *)
Definition last_segment (p : list ascii) : list ascii :=
  rev (take_while (fun c => negb (is_slash c)) (drop_while is_slash (rev p))).

(** [path.extname]: from the last dot of the last portion to its end;
    empty when there is no dot, when the only dot starts the portion, and
    for the portion [..]. *)
Definition extname (path : string) : string :=
  let seg := last_segment (list_ascii_of_string path) in
  let ext_rev := take_while (fun c => negb (is_dot c)) (rev seg) in
  let stem_rev := drop (S (length ext_rev)) (rev seg) in
  if decide (length ext_rev = length seg) then ""
  else if decide (stem_rev = []) then ""
  else if decide (seg = ["."%char; "."%char]) then ""
  else string_of_list_ascii ("."%char :: rev ext_rev).

(** [path.basename(path, ext)]: the last portion, without [ext] when it
    ends with it and is longer. *)
Definition basename (path ext : string) : string :=
  let seg := last_segment (list_ascii_of_string path) in
  let e := list_ascii_of_string ext in
  if decide (e = []) then string_of_list_ascii seg
  else if decide (ext = path) then ""
  else if decide (drop (length seg - length e) seg = e ∧ (length e < length seg)%nat)
       then string_of_list_ascii (take (length seg - length e) seg)
       else string_of_list_ascii seg.

(** [path.dirname]: the path up to the slash before its last portion;
    [/] or [.] when there is none. *)
Definition dirname (path : string) : string :=
  let p := list_ascii_of_string path in
  let has_root := match p with c :: _ => is_slash c | [] => false end in
  let upto := drop_while (fun c => negb (is_slash c))
                (drop_while is_slash (rev (tail p))) in
  match upto with
  | [] => if has_root then "/" else "."
  | _ => if has_root && (length upto =? 1)%nat then "//"
         else string_of_list_ascii (take (length upto) p)
  end.

(** [path.join] of two portions, for a first portion without dot
    segments. *)
Definition join (a b : string) : string :=
  if decide (b = "") then a
  else if decide (a = "") then b
  else string_of_list_ascii
         (rev (drop_while is_slash (rev (list_ascii_of_string a)))
          ++ slash :: drop_while is_slash (list_ascii_of_string b)).

End Path.

(** Portions of a path without a slash, and without a dot. *)
Definition no_slash (l : list ascii) : Prop :=
  Forall (λ c, Path.is_slash c = false) l.
Definition no_dot (l : list ascii) : Prop :=
  Forall (λ c, Path.is_dot c = false) l.

(** ** The world around an invocation *)

(** [process.env]. *)
Abbreviation Env := (gmap string string).

(** One completion call of handler code on the context. *)
Inductive call :=
| CallDone (err value : jsval)
| CallSucceed (value : jsval)
| CallFail (err : jsval).

(** How a future returned by a handler settles. *)
Inductive settlement :=
| Fulfills (value : jsval)
| Rejects (reason : jsval).

(** What a handler body hands back: a plain value, or a future (an
    object whose [then] is callable). *)
Inductive retval :=
| Plain (v : jsval)
| Future (s : settlement).

(** A computation that returns or throws. *)
Inductive completion (A : Type) :=
| Normal (a : A)
| Abrupt (e : jsval).
Arguments Normal {A} a.
Arguments Abrupt {A} e.

(** What happens after the handler body has returned, in the order of
    the event loop: a later completion call of handler code, the
    settlement of the returned future, the expiry of the time budget. *)
Inductive async_event :=
| ACall (c : call)
| ASettle
| AExpire.

(** One run of a handler: the completion calls of its body, how the body
    ends, and what follows asynchronously. *)
Record HandlerRun := {
  sync_calls : list call;
  finish : completion retval;
  later : list async_event;
}.

(** A handler is a function of the process environment it can read and
    of the event.  The context it receives is driven through the calls
    of its run. *)
Abbreviation Handler := (Env → jsval → HandlerRun).

(** A module object, given as [lambdaFunc] or returned by [require], as
    far as the scheduler reads it: [property m name] is the function that
    the read [m[name]] gives, whether the property is the object's own or
    inherited through its prototype chain; [None] when there is no such
    property or its value cannot be called. *)
Record Module' := {
  property : string → option Handler;
}.

(** [m !! name] is the read [m[name]]. *)
#[global] Instance module_lookup : Lookup string Handler Module' :=
  λ name m, property m name.

(** [{[ name := f ]}]: an object without a prototype whose one property
    is the function [f]. *)
#[global] Instance module_singleton : SingletonM string Handler Module' :=
  λ name f, {| property := λ k, if decide (k = name) then Some f else None |}.

(** The event of the options: a value, or a zero-argument producer. *)
Inductive event_source :=
| EventValue (v : jsval)
| EventProducer (run : completion jsval).

(** The completion callback of the options: the caller's own, which is
    taken to return, or the one [execute] installs to settle its
    future. *)
Inductive Callback :=
| UserCallback
| FutureCallback.

(** The options object, field by field; [None] is [undefined]. *)
Record Options := {
  event : option event_source;
  lambdaFunc : option Module';
  lambdaPath : option string;
  lambdaHandler : option string;
  profilePath : option string;
  profileName : option string;
  region : option string;
  environment : option Env;
  envdestroy : option bool;
  envfile : option string;
  callbackWaitsForEmptyEventLoop : option bool;
  timeoutMs : option Z;
  verboseLevel : option Z;
  callback : option Callback;
  clientContext : option jsval;
  port : option Z;
}.

(** What the host supplies: memory, versions, directories, the file
    system as far as the module reads it. *)
Record Host := {
  freemem : Z;
  node_version : string;
  node_major_version : Z;
  cwd : string;
  homedir : string;
  timeZone : string;
  existsSync : string → bool;
  dotenv_file : string → Env;
  credentials_file : string → option string → Env;
  modules : string → option Module';
}.

(** The state an invocation changes: the process environment, the
    modules loaded so far and the lines logged. *)
Record World := {
  env : Env;
  loaded : list string;
  logged : list (string * string);
}.

Definition set_env (f : Env → Env) (w : World) : World :=
  {| env := f (env w); loaded := loaded w; logged := logged w |}.

Definition add_loaded (p : string) (w : World) : World :=
  {| env := env w; loaded := loaded w ++ [p]; logged := logged w |}.

Definition add_log (level msg : string) (w : World) : World :=
  {| env := env w; loaded := loaded w; logged := logged w ++ [(level, msg)] |}.

(** ** Environment staging *)

(** [updateEnv]: each key of [vars] is set unless the process variable
    is truthy already. *)
Definition updateEnv (vars : Env) (penv : Env) : Env :=
  map_fold (fun key value acc =>
              if truthy_str (acc !! key) then acc else <[key := value]> acc)
           penv vars.

(** The custom variables of the options: every key is set. *)
Definition set_all (vars : Env) (penv : Env) : Env :=
  map_fold (fun key value acc => <[key := value]> acc) penv vars.

(** The finalisation hook's teardown: every custom key is deleted. *)
Definition delete_all (vars : Env) (penv : Env) : Env :=
  map_fold (fun key _ acc => delete key acc) penv vars.

(** [dotenv.config]: the variables of the file, none of which replaces a
    variable that is defined already. *)
Definition dotenv_config (h : Host) (file : string) (penv : Env) : Env :=
  map_fold (fun key value acc =>
              match acc !! key with Some _ => acc | None => <[key := value]> acc end)
           penv (dotenv_file h file).

(** Modelled from the spec: [utils.getAbsolutePath] is not among the
    sources; it resolves a path to an absolute location.  An absolute
    path is kept, a path under [~] is taken under the home directory,
    any other under the working directory. *)
Definition getAbsolutePath (h : Host) (p : string) : string :=
  match p with
  | String "/" _ => p
  | String "~" EmptyString => homedir h
  | String "~" (String "/" rest) => Path.join (homedir h) rest
  | _ => Path.join (cwd h) p
  end.

(** Modelled from the spec: [utils.loadAWSCredentials] is not among the
    sources; it reads a credentials-style file and stages the keys that
    match the profile as defaults, each only if absent from the process
    environment.  The file is taken to be readable: what the function
    does with a file it cannot read is not stated and is outside this
    model. *)
Definition loadAWSCredentials (h : Host) (file : string)
  (profile : option string) (penv : Env) : Env :=
  map_fold (fun key value acc =>
              match acc !! key with Some _ => acc | None => <[key := value]> acc end)
           penv (credentials_file h file profile).

(** [a || b] for the export name and its literal default. *)
Definition handler_name (o : Options) : string :=
  default "handler" (or_str (lambdaHandler o) (Some "handler")).

(** The path of the handler file as the function uses it: made absolute
    when one is given. *)
Definition resolved_path (h : Host) (o : Options) : option string :=
  if truthy_str (lambdaPath o) then getAbsolutePath h <$> lambdaPath o
  else lambdaPath o.

(** The defaults staged before the handler is loaded. *)
Definition envVars (h : Host) (o : Options) : Env :=
  let base : Env :=
    <["TZ" := timeZone h]>
    (<["NODE_PATH" := getAbsolutePath h "node_modules"]>
    (<["LAMBDA_RUNTIME_DIR" := cwd h]>
    (<["LAMBDA_CONTROL_SOCKET" := "11"]>
    (<["LAMBDA_CONSOLE_SOCKET" := "14"]>
    (<["AWS_EXECUTION_ENV" := "AWS_Lambda_nodejs" +:+ substring 1 (String.length (node_version h)) (node_version h)]>
    (<["AWS_LAMBDA_FUNCTION_VERSION" := "1.0"]>
    (<["AWS_LAMBDA_FUNCTION_MEMORY_SIZE" := pretty (freemem h / 1048576)]>
    (<["AWS_LAMBDA_FUNCTION_NAME" := handler_name o]> ∅)))))))) in
  match resolved_path h o with
  | Some p =>
      if truthy_str (Some p) then
        <["_HANDLER" := Path.basename p (Path.extname p) +:+ "." +:+ handler_name o]>
        (<["LAMBDA_TASK_ROOT" := Path.dirname p]> base)
      else
        <["_HANDLER" := "index." +:+ handler_name o]>
        (<["LAMBDA_TASK_ROOT" := cwd h]> base)
  | None =>
      <["_HANDLER" := "index." +:+ handler_name o]>
      (<["LAMBDA_TASK_ROOT" := cwd h]> base)
  end.

(** The profile name: the option, else [AWS_PROFILE], else
    [AWS_DEFAULT_PROFILE], read when the function starts. *)
Definition profile_name (o : Options) (penv : Env) : option string :=
  or_str (profileName o) (or_str (penv !! "AWS_PROFILE") (penv !! "AWS_DEFAULT_PROFILE")).

(** Loading the profiles: the default config file, the default
    credentials file, then the file of the options or of
    [AWS_SHARED_CREDENTIALS_FILE]. *)
Definition load_profiles (h : Host) (o : Options) (profile : option string)
  (penv : Env) : Env :=
  let profile_path := or_str (profilePath o) (penv !! "AWS_SHARED_CREDENTIALS_FILE") in
  let default_config_file := getAbsolutePath h "~/.aws/config" in
  let default_credentials_file := getAbsolutePath h "~/.aws/credentials" in
  let e1 := if existsSync h default_config_file
            then loadAWSCredentials h default_config_file profile penv else penv in
  let e2 := if existsSync h default_credentials_file
            then loadAWSCredentials h default_credentials_file profile e1 else e1 in
  match profile_path with
  | Some f => if truthy_str (Some f) then loadAWSCredentials h f profile e2 else e2
  | None => e2
  end.

(** [region || process.env[key] || 'us-east-1'], assigned to [key]. *)
Definition stage_region_var (key : string) (reg : option string) (penv : Env) : Env :=
  <[key := default "us-east-1" (or_str reg (or_str (penv !! key) (Some "us-east-1")))]> penv.

(** The two assignments that follow the loading of the profiles. *)
Definition stage_region (reg : option string) (penv : Env) : Env :=
  stage_region_var "AWS_DEFAULT_REGION" reg (stage_region_var "AWS_REGION" reg penv).

(** The two region variables. *)
Definition region_var (k : string) : Prop :=
  k = "AWS_REGION" ∨ k = "AWS_DEFAULT_REGION".

(** The staging of [_executeSync] up to the loading of the profiles: the
    defaults, the custom variables, the variables file, the profiles. *)
Definition env_before_region (h : Host) (o : Options) (penv : Env) : Env :=
  let profile := profile_name o penv in
  let e1 := updateEnv (envVars h o) penv in
  let e2 := match environment o with Some vars => set_all vars e1 | None => e1 end in
  let e3 := match envfile o with Some f => dotenv_config h f e2 | None => e2 end in
  load_profiles h o profile e3.

(** The whole staging, region variables included. *)
Definition stage_environment (h : Host) (o : Options) (penv : Env) : Env :=
  stage_region (region o) (env_before_region h o penv).

(** ** The invocation context *)

Module Context.

(** Completion state.  [Completed err value] holds the two arguments of
    the completion: a success is [Completed VNull value], a failure is
    [Completed error VNull]. *)
Inductive state :=
| Pending
| Completed (err value : jsval).

(** Modelled from the spec: [lib/context.js] is not among the sources.
    The context holds what [_initialize] receives, the completion state,
    the timer handle and the finalisation hook; [finalized] counts the
    runs of the hook and [delivered] lists the calls of the completion
    callback, oldest first. *)
Record t := {
  functionName : string;
  timeoutMs : Z;
  callbackWaitsForEmptyEventLoop : bool;
  verboseLevel : Z;
  clientContext : jsval;
  finalCallback : World → World;
  callback : option Callback;
  completion_state : state;
  timer : bool;
  finalized : nat;
  delivered : list (jsval * jsval);
}.

(** Modelled from the spec: a fresh context is pending and has no timer. *)
Definition _initialize (name : string) (budget : Z) (waits : bool) (verbose : Z)
  (hook : World → World) (client : jsval) : t :=
  {| functionName := name; timeoutMs := budget;
     callbackWaitsForEmptyEventLoop := waits; verboseLevel := verbose;
     clientContext := client; finalCallback := hook; callback := None;
     completion_state := Pending; timer := false; finalized := 0%nat;
     delivered := [] |}.

Definition set_callback (cb : Callback) (c : t) : t :=
  {| functionName := functionName c; timeoutMs := timeoutMs c;
     callbackWaitsForEmptyEventLoop := callbackWaitsForEmptyEventLoop c;
     verboseLevel := verboseLevel c; clientContext := clientContext c;
     finalCallback := finalCallback c; callback := Some cb;
     completion_state := completion_state c; timer := timer c;
     finalized := finalized c; delivered := delivered c |}.

(** Modelled from the spec: [startTimeout] arms a timer for the budget. *)
Definition _init_timeout (c : t) : t :=
  {| functionName := functionName c; timeoutMs := timeoutMs c;
     callbackWaitsForEmptyEventLoop := callbackWaitsForEmptyEventLoop c;
     verboseLevel := verboseLevel c; clientContext := clientContext c;
     finalCallback := finalCallback c; callback := callback c;
     completion_state := completion_state c; timer := true;
     finalized := finalized c; delivered := delivered c |}.

(** Modelled from the spec: the single guarded completion routine.  The
    first call completes the context, cancels the timer, runs the
    finalisation hook and hands the outcome to the callback; a later
    call does nothing.  It returns in either case: it has no way to
    throw. *)
Definition complete (err value : jsval) (c : t) (w : World) : t * World :=
  match completion_state c with
  | Pending =>
      ({| functionName := functionName c; timeoutMs := timeoutMs c;
          callbackWaitsForEmptyEventLoop := callbackWaitsForEmptyEventLoop c;
          verboseLevel := verboseLevel c; clientContext := clientContext c;
          finalCallback := finalCallback c; callback := callback c;
          completion_state := Completed err value; timer := false;
          finalized := S (finalized c);
          delivered := delivered c ++ [(err, value)] |},
       finalCallback c w)
  | Completed _ _ => (c, w)
  end.

(** Modelled from the spec: the three operations of handler code.  The
    specification names the error of [fail] only; the value handed on
    with it is not fixed there and is [null] here. *)
Definition done (err value : jsval) := complete err value.
Definition succeed (value : jsval) := complete VNull value.
Definition fail (err : jsval) := complete err VNull.

(** Modelled from the spec: the error of an invocation that exceeded its
    budget.  The spec fixes its kind only. *)
Definition timeout_error : jsval := VError TimeoutError "".

(** Modelled from the spec: when the timer fires, the context is
    force-completed with a TimeoutError; a cancelled timer never
    fires. *)
Definition expire (c : t) (w : World) : t * World :=
  if timer c then complete timeout_error VNull c w else (c, w).

End Context.

(** What a caller can observe of a context is consistent with its state:
    nothing delivered and the hook not run while pending, one delivery
    and one run of the hook once completed. *)
Definition once (c : Context.t) : Prop :=
  match Context.completion_state c with
  | Context.Pending => Context.delivered c = [] ∧ Context.finalized c = 0%nat
  | Context.Completed err value =>
      Context.delivered c = [(err, value)] ∧ Context.finalized c = 1%nat
  end.

(** A context that will complete: it has, or its timer is armed. *)
Definition live (c : Context.t) : Prop :=
  Context.completion_state c ≠ Context.Pending ∨ Context.timer c = true.

(** ** The scheduler *)

(** An invocation in flight: its context, the future of the handler that
    was wired to [succeed] and [fail] and has not settled yet, and what
    the event loop still holds. *)
Record Invocation := {
  context : Context.t;
  wired : option settlement;
  agenda : list async_event;
}.

Definition apply_call (c : call) (ctx : Context.t) (w : World) : Context.t * World :=
  match c with
  | CallDone err value => Context.done err value ctx w
  | CallSucceed value => Context.succeed value ctx w
  | CallFail err => Context.fail err ctx w
  end.

Definition apply_calls (cs : list call) (ctx : Context.t) (w : World)
  : Context.t * World :=
  fold_left (fun st c => apply_call c st.1 st.2) cs (ctx, w).

Definition parse_error : jsval :=
  VError SyntaxError "clientContext is an invalid stringified JS object".

(** The client context: parsed when it is a string, taken as it is
    otherwise, [null] when the option is falsy. *)
Definition client_context (o : Options) : completion jsval :=
  match clientContext o with
  | Some v =>
      if truthy v then
        match v with
        | VStr s =>
            match JSON.parse s with
            | Some parsed => Normal parsed
            | None => Abrupt parse_error
            end
        | _ => Normal v
        end
      else Normal VNull
  | None => Normal VNull
  end.

(** [require(lambdaPath)] after the cache entry is deleted: the module
    is loaded afresh, and a path that does not resolve throws. *)
Definition load_module (h : Host) (path : option string) (w : World)
  : World * completion Module' :=
  match path with
  | Some p =>
      match modules h p with
      | Some m => (add_loaded p w, Normal m)
      | None => (w, Abrupt (VError LoadError ("Cannot find module '" +:+ p +:+ "'")))
      end
  | None => (w, Abrupt (VError TypeError "The id argument must be of type string"))
  end.

(** [event instanceof Function ? event() : event]. *)
Definition resolve_event (o : Options) : completion jsval :=
  match event o with
  | Some (EventValue v) => Normal v
  | Some (EventProducer run) => run
  | None => Normal VUndefined
  end.

(** What follows the call of the handler: a truthy result with a truthy
    [then] has it called with [succeed] and [fail], any other truthy
    result makes [succeed(null)], a falsy result makes nothing. *)
Definition handle_result (r : retval) (ctx : Context.t) (w : World)
  : Context.t * World * completion (option settlement) :=
  match r with
  | Future s => (ctx, w, Normal (Some s))
  | Plain v =>
      if truthy v then
        if truthy (default VUndefined (get_prop v "then")) then
          (ctx, w, Abrupt (VError TypeError "result.then is not a function"))
        else
          let '(ctx', w') := Context.succeed VNull ctx w in (ctx', w', Normal None)
      else (ctx, w, Normal None)
  end.

(** The body of the [try] block. *)
Definition try_block (h : Host) (o : Options) (path : option string)
  (ctx : Context.t) (w : World)
  : Context.t * World * completion (option settlement) * list async_event :=
  let '(w1, loaded_module) :=
    match lambdaFunc o with
    | Some m => (w, Normal m)
    | None => load_module h path w
    end in
  match loaded_module with
  | Abrupt e => (ctx, w1, Abrupt e, [])
  | Normal m =>
      match resolve_event o with
      | Abrupt e => (ctx, w1, Abrupt e, [])
      | Normal ev =>
          let ctx1 := Context._init_timeout ctx in
          match m !! handler_name o with
          | None =>
              (ctx1, w1,
               Abrupt (VError TypeError "lambdaFunc[lambdaHandler] is not a function"), [])
          | Some f =>
              let run := f (env w1) ev in
              let '(ctx2, w2) := apply_calls (sync_calls run) ctx1 w1 in
              match finish run with
              | Abrupt e => (ctx2, w2, Abrupt e, later run)
              | Normal r =>
                  let '(ctx3, w3, res) := handle_result r ctx2 w2 in
                  (ctx3, w3, res, later run)
              end
          end
      end
  end.

(** The finalisation hook given to the context. *)
Definition finalCallback (o : Options) (w : World) : World :=
  match environment o with
  | Some vars =>
      if default false (envdestroy o) then set_env (delete_all vars) w else w
  | None => w
  end.

Definition both_error : jsval :=
  VError SyntaxError "Cannot specify both lambdaFunc and lambdaPath !".

(** [callbackWaitsForEmptyEventLoop], and whether the hosting runtime is
    too old for it. *)
Definition waits_requested (o : Options) : bool :=
  default false (callbackWaitsForEmptyEventLoop o).

Definition waits_unsupported (h : Host) (o : Options) : bool :=
  waits_requested o && (node_major_version h <? 16).

(** The world when the context is created: the warning about an
    unsupported option, and the staged environment. *)
Definition staged_world (h : Host) (o : Options) (w : World) : World :=
  set_env (stage_environment h o)
    (if waits_unsupported h o
     then add_log "warn" "callbackWaitsForEmptyEventLoop not supported on node < 16" w
     else w).

(** The context of the invocation, with the callback of the options. *)
Definition new_context (h : Host) (o : Options) (client : jsval) : Context.t :=
  let budget := match timeoutMs o with
                | Some t => if t =? 0 then 3000 else t
                | None => 3000
                end in
  let waits := if waits_unsupported h o then false else waits_requested o in
  let ctx := Context._initialize (handler_name o) budget waits
               (default 3 (verboseLevel o)) (finalCallback o) client in
  match callback o with
  | Some cb => Context.set_callback cb ctx
  | None => ctx
  end.

Definition _executeSync (h : Host) (o : Options) (w : World)
  : World * completion Invocation :=
  match client_context o with
  | Abrupt e => (w, Abrupt e)
  | Normal client =>
      if bool_decide (is_Some (lambdaFunc o)) && truthy_str (lambdaPath o) then
        (w, Abrupt both_error)
      else
        let '(ctx1, w2, res, todo) :=
          try_block h o (resolved_path h o) (new_context h o client)
            (staged_world h o w) in
        match res with
        | Normal fut => (w2, Normal {| context := ctx1; wired := fut; agenda := todo |})
        | Abrupt e =>
            let '(ctx2, w3) := Context.fail e ctx1 w2 in
            (w3, Normal {| context := ctx2; wired := None; agenda := todo |})
        end
  end.

(** What the event loop brings after [_executeSync] has returned. *)
Definition async_step (ev : async_event) (inv : Invocation) (w : World)
  : Invocation * World :=
  match ev with
  | ACall c =>
      let '(ctx, w') := apply_call c (context inv) w in
      ({| context := ctx; wired := wired inv; agenda := agenda inv |}, w')
  | ASettle =>
      match wired inv with
      | Some (Fulfills v) =>
          let '(ctx, w') := Context.succeed v (context inv) w in
          ({| context := ctx; wired := None; agenda := agenda inv |}, w')
      | Some (Rejects e) =>
          let '(ctx, w') := Context.fail e (context inv) w in
          ({| context := ctx; wired := None; agenda := agenda inv |}, w')
      | None => (inv, w)
      end
  | AExpire =>
      let '(ctx, w') := Context.expire (context inv) w in
      ({| context := ctx; wired := wired inv; agenda := agenda inv |}, w')
  end.

Definition run_events (evs : list async_event) (inv : Invocation) (w : World)
  : Invocation * World :=
  fold_left (fun st ev => async_step ev st.1 st.2) evs (inv, w).

(** What the event loop holds for an invocation: its agenda in order,
    and last the timer, which fires if nothing has cancelled it. *)
Definition schedule (inv : Invocation) : list async_event :=
  agenda inv ++ [AExpire].

Definition scheduled (inv : Invocation) : Invocation :=
  {| context := context inv; wired := wired inv; agenda := [] |}.

(** The invocation as it is after the first [n] events of its
    schedule. *)
Definition observe_after (n : nat) (inv : Invocation) (w : World) : Invocation * World :=
  run_events (take n (schedule inv)) (scheduled inv) w.

(** The invocation run until the event loop is idle. *)
Definition drain (inv : Invocation) (w : World) : Invocation * World :=
  run_events (schedule inv) (scheduled inv) w.

(** ** The paths to completion *)

(** Whether the options give both handler sources. *)
Definition both_sources (o : Options) : bool :=
  bool_decide (is_Some (lambdaFunc o)) && truthy_str (lambdaPath o).

(** What the [try] block reaches before the handler body runs, starting
    from the staged world: the module (given, or loaded from the resolved
    path), the event, the handler.  [Abrupt] is an exception thrown
    before the timer is armed.  Otherwise the timer is armed; [Normal
    None] then stands for a handler property that is no function, and
    [Normal (Some run)] for the run of the handler on the event. *)
Definition prepare (h : Host) (o : Options) (w : World)
  : World * completion (option HandlerRun) :=
  let '(w1, loaded_module) :=
    match lambdaFunc o with
    | Some m => (staged_world h o w, Normal m)
    | None => load_module h (resolved_path h o) (staged_world h o w)
    end in
  match loaded_module with
  | Abrupt e => (w1, Abrupt e)
  | Normal m =>
      match resolve_event o with
      | Abrupt e => (w1, Abrupt e)
      | Normal ev =>
          (w1, Normal ((λ f : Handler, f (env w1) ev) <$> m !! handler_name o))
      end
  end.

(** A path to completion: a completion call of handler code, the
    settlement of the future the handler returned, the handler's plain
    return of a truthy value, an exception caught by the scheduler, the
    expiry of the time budget. *)
Inductive completion_path :=
| ByCall (c : call)
| BySettlement (s : settlement)
| ByReturn
| ByException (e : jsval)
| ByTimeout.

(** What a path does to the context when it fires. *)
Definition fire (p : completion_path) (ctx : Context.t) (w : World)
  : Context.t * World :=
  match p with
  | ByCall c => apply_call c ctx w
  | BySettlement (Fulfills v) => Context.succeed v ctx w
  | BySettlement (Rejects e) => Context.fail e ctx w
  | ByReturn => Context.succeed VNull ctx w
  | ByException e => Context.fail e ctx w
  | ByTimeout => Context.expire ctx w
  end.

Definition fire_all (ps : list completion_path) (ctx : Context.t) (w : World)
  : Context.t * World :=
  fold_left (fun st p => fire p st.1 st.2) ps (ctx, w).

(** The path a handler's way of ending opens at once: the exception it
    throws, its truthy plain value, or the TypeError of a [then] that is
    truthy and cannot be called; a future and a falsy value open none. *)
Definition return_paths (r : completion retval) : list completion_path :=
  match r with
  | Abrupt e => [ByException e]
  | Normal (Future _) => []
  | Normal (Plain v) =>
      if truthy v then
        if truthy (default VUndefined (get_prop v "then")) then
          [ByException (VError TypeError "result.then is not a function")]
        else [ByReturn]
      else []
  end.

(** The future that is wired to the context when the handler returns. *)
Definition returned_future (r : completion retval) : option settlement :=
  match r with
  | Normal (Future s) => Some s
  | _ => None
  end.

(** The paths the event loop brings, in its order: later calls, the
    settlement of the wired future (once), the timer. *)
Fixpoint async_paths (fut : option settlement) (evs : list async_event)
  : list completion_path :=
  match evs with
  | [] => []
  | ACall c :: rest => ByCall c :: async_paths fut rest
  | ASettle :: rest =>
      match fut with
      | Some s => BySettlement s :: async_paths None rest
      | None => async_paths None rest
      end
  | AExpire :: rest => ByTimeout :: async_paths fut rest
  end.

(** The competing paths of an invocation, in the order in which they
    come to fire: the completion calls of the handler body, what its
    return or its exception opens, then what the event loop brings, with
    the timer of the invocation last.  An invocation that fails before
    its handler is called has the one path of that exception. *)
Definition competing_paths (p : completion (option HandlerRun)) : list completion_path :=
  match p with
  | Abrupt e => [ByException e]
  | Normal None =>
      [ByException (VError TypeError "lambdaFunc[lambdaHandler] is not a function")]
  | Normal (Some run) =>
      map ByCall (sync_calls run) ++ return_paths (finish run)
      ++ async_paths (returned_future (finish run)) (later run ++ [AExpire])
  end.

(** ** The direct API *)

(** The objects the caller and the module hold options in. *)
Abbreviation Heap := (gmap nat Options).

Definition with_callback (cb : Callback) (o : Options) : Options :=
  {| event := event o; lambdaFunc := lambdaFunc o; lambdaPath := lambdaPath o;
     lambdaHandler := lambdaHandler o; profilePath := profilePath o;
     profileName := profileName o; region := region o;
     environment := environment o; envdestroy := envdestroy o;
     envfile := envfile o;
     callbackWaitsForEmptyEventLoop := callbackWaitsForEmptyEventLoop o;
     timeoutMs := timeoutMs o; verboseLevel := verboseLevel o;
     callback := Some cb; clientContext := clientContext o; port := port o |}.

Definition with_event (ev : event_source) (o : Options) : Options :=
  {| event := Some ev; lambdaFunc := lambdaFunc o; lambdaPath := lambdaPath o;
     lambdaHandler := lambdaHandler o; profilePath := profilePath o;
     profileName := profileName o; region := region o;
     environment := environment o; envdestroy := envdestroy o;
     envfile := envfile o;
     callbackWaitsForEmptyEventLoop := callbackWaitsForEmptyEventLoop o;
     timeoutMs := timeoutMs o; verboseLevel := verboseLevel o;
     callback := callback o; clientContext := clientContext o; port := port o |}.

Definition with_verboseLevel (v : Z) (o : Options) : Options :=
  {| event := event o; lambdaFunc := lambdaFunc o; lambdaPath := lambdaPath o;
     lambdaHandler := lambdaHandler o; profilePath := profilePath o;
     profileName := profileName o; region := region o;
     environment := environment o; envdestroy := envdestroy o;
     envfile := envfile o;
     callbackWaitsForEmptyEventLoop := callbackWaitsForEmptyEventLoop o;
     timeoutMs := timeoutMs o; verboseLevel := Some v;
     callback := callback o; clientContext := clientContext o; port := port o |}.

(** The options [_executeSync] receives from [execute]: the caller's
    when they hold a callback, the copy with the installed callback
    otherwise. *)
Definition effective_options (o : Options) : Options :=
  match callback o with
  | Some _ => o
  | None => with_callback FutureCallback o
  end.

(** The state of a future. *)
Inductive promise_state :=
| PPending
| PFulfilled (value : jsval)
| PRejected (reason : jsval).

(** One call of the callback [execute] installs: [reject] when the error
    is truthy, then [resolve]; a settled future stays as it is. *)
Definition future_callback (p : promise_state) (args : jsval * jsval) : promise_state :=
  let reject (p : promise_state) (e : jsval) :=
    match p with PPending => PRejected e | _ => p end in
  let resolve (p : promise_state) (v : jsval) :=
    match p with PPending => PFulfilled v | _ => p end in
  let p1 := if truthy args.1 then reject p args.1 else p in
  resolve p1 args.2.

Definition future_of (calls : list (jsval * jsval)) : promise_state :=
  fold_left future_callback calls PPending.

(** What [execute] gives back: an exception, nothing (callback style,
    the invocation is in flight), or a future, which is rejected at once
    when [_executeSync] throws inside its executor. *)
Inductive exec_result :=
| ExecThrew (e : jsval)
| ExecReturned (inv : Invocation)
| ExecFuture (r : completion Invocation).

Definition undefined_opts_error : jsval :=
  VError TypeError "Cannot read properties of undefined (reading 'callback')".

(** [execute(opts)], with [opts] the object at [l]. *)
Definition execute (h : Host) (l : nat) (hp : Heap) (w : World)
  : Heap * World * exec_result :=
  match hp !! l with
  | None => (hp, w, ExecThrew undefined_opts_error)
  | Some opts =>
      match callback opts with
      | Some _ =>
          let '(w', r) := _executeSync h opts w in
          (hp, w', match r with
                   | Normal inv => ExecReturned inv
                   | Abrupt e => ExecThrew e
                   end)
      | None =>
          let l' := fresh (dom hp) in
          let hp1 := <[l' := opts]> hp in
          let hp2 := alter (with_callback FutureCallback) l' hp1 in
          match hp2 !! l' with
          | Some _opts =>
              let '(w', r) := _executeSync h _opts w in (hp2, w', ExecFuture r)
          | None => (hp2, w, ExecThrew undefined_opts_error)
          end
      end
  end.

(** The outcome the caller sees once the event loop is idle. *)
Inductive outcome :=
| Thrown (e : jsval)
| Called (calls : list (jsval * jsval))
| Settled (p : promise_state).

Definition observe (r : exec_result) (w : World) : World * outcome :=
  match r with
  | ExecThrew e => (w, Thrown e)
  | ExecReturned inv =>
      let '(inv', w') := drain inv w in (w', Called (Context.delivered (context inv')))
  | ExecFuture (Abrupt e) => (w, Settled (PRejected e))
  | ExecFuture (Normal inv) =>
      let '(inv', w') := drain inv w in
      (w', Settled (future_of (Context.delivered (context inv'))))
  end.

(** ** The HTTP front end *)

Definition kind_name (k : error_kind) : string :=
  match k with
  | SyntaxError => "SyntaxError"
  | TypeError => "TypeError"
  | TimeoutError => "TimeoutError"
  | LoadError | PlainError => "Error"
  end.

(** ToString, as a template literal applies it. *)
Fixpoint to_string (v : jsval) : string :=
  match v with
  | VUndefined => "undefined"
  | VNull => "null"
  | VBool b => if b then "true" else "false"
  | VNum m e => JSON.number_to_string m e
  | VStr s => s
  | VArr items =>
      JSON.join "," (map (fun x => match x with
                                   | VUndefined | VNull => ""
                                   | _ => to_string x
                                   end) items)
  | VObj _ => "[object Object]"
  | VError k msg => if decide (msg = "") then kind_name k else kind_name k +:+ ": " +:+ msg
  end.

Record Request := {
  method : string;
  host_header : option string;
  url : string;
  content_type : option string;
  body : string;
}.

(** The response object: its status code, and every [res.end] with the
    status code it was made under, oldest first.  The client receives
    the first. *)
Record Res := {
  statusCode : Z;
  sent : list (Z * string);
}.

Definition fresh_res : Res := {| statusCode := 200; sent := [] |}.

Definition res_end (data : string) (res : Res) : Res :=
  {| statusCode := statusCode res; sent := sent res ++ [(statusCode res, data)] |}.

Definition log_msg (req : Request) : string :=
  method req +:+ " " +:+ default "undefined" (host_header req) +:+ " " +:+ url req.

Definition handle_error (req : Request) (error : jsval) (res : Res) (w : World)
  : Res * World :=
  let w' := add_log "warn" (log_msg req +:+ " -> " +:+ to_string error) w in
  (res_end (JSON.stringify_object [("error", error)])
           {| statusCode := 500; sent := sent res |}, w').

Definition handle_ok (req : Request) (data : jsval) (res : Res) (w : World)
  : Res * World :=
  let ans := JSON.stringify_object [("data", data)] in
  let w' := add_log "info" (log_msg req +:+ " -> OK ("
                            +:+ pretty (Z.of_nat (String.length ans) * 2) +:+ " bytes)") w in
  (res_end ans res, w').

Definition invalid_header : jsval :=
  VStr "Invalid header Content-Type (Expected application/json)".

Definition invalid_body : jsval :=
  VStr ("Invalid body (Expected " +:+ String JSON.dquote "event"
        +:+ String JSON.dquote " property)").

(** [_getRequestPayload], from the [end] event on: the calls it makes of
    its continuation, in order.  An exception here is thrown inside an
    event listener, outside every [try]. *)
Definition _getRequestPayload (body : string) : completion (list (jsval * jsval)) :=
  match JSON.parse body with
  | None => Abrupt (VError SyntaxError "Unexpected token in JSON")
  | Some payload =>
      match get_prop payload "event" with
      | None => Abrupt (VError TypeError "Cannot read properties of null (reading 'event')")
      | Some ev =>
          Normal ((if truthy ev then [] else [(invalid_body, VUndefined)])
                  ++ [(VNull, ev)])%list
      end
  end.

(** The continuation [watch] passes to [_getRequestPayload], after its
    test of the error: one invocation with the options of the server
    and an event producer for [result], and the response made of its
    outcome. *)
Definition respond (h : Host) (l : nat) (req : Request)
  (st : Heap * World * Res) (result : jsval) : Heap * World * Res :=
  let '(hp, w, res) := st in
  match hp !! l with
  | None => let '(res', w') := handle_error req undefined_opts_error res w in (hp, w', res')
  | Some opts =>
      let l' := fresh (dom hp) in
      let hp1 := <[l' := with_event (EventProducer (Normal result)) opts]> hp in
      let '(hp2, w1, r) := execute h l' hp1 w in
      match observe r w1 with
      | (w2, Thrown e) | (w2, Settled (PRejected e)) =>
          let '(res', w3) := handle_error req e res w2 in (hp2, w3, res')
      | (w2, Called _) =>
          let '(res', w3) := handle_ok req VUndefined res w2 in (hp2, w3, res')
      | (w2, Settled (PFulfilled data)) =>
          let '(res', w3) := handle_ok req data res w2 in (hp2, w3, res')
      | (w2, Settled PPending) => (hp2, w2, res)
      end
  end.

(** The continuation as a whole: a truthy error is thrown and caught,
    and answered as an error. *)
Definition on_payload (h : Host) (l : nat) (req : Request)
  (st : Heap * World * Res) (args : jsval * jsval) : Heap * World * Res :=
  if truthy args.1 then
    let '(res', w') := handle_error req args.1 st.2 st.1.2 in (st.1.1, w', res')
  else respond h l req st args.2.

(** The request listener of [watch].  [Abrupt] is an exception nobody
    catches: it ends the process, and the listener with it. *)
Definition handle_request (h : Host) (l : nat) (req : Request) (hp : Heap) (w : World)
  : Heap * World * completion Res :=
  if decide (content_type req = Some "application/json") then
    match _getRequestPayload (body req) with
    | Abrupt e => (hp, w, Abrupt e)
    | Normal calls =>
        let '(hp', w', res) := fold_left (on_payload h l req) calls (hp, w, fresh_res) in
        (hp', w', Normal res)
    end
  else
    let '(res, w') := handle_error req invalid_header fresh_res w in
    (hp, w', Normal res).

(** [watch(opts)]: a falsy verbosity becomes 0 on the caller's object,
    and the listener is started. *)
Definition watch (l : nat) (hp : Heap) (w : World) : Heap * World :=
  let hp' := alter (fun o => match verboseLevel o with
                             | Some v => if v =? 0 then with_verboseLevel 0 o else o
                             | None => with_verboseLevel 0 o
                             end) l hp in
  let port_text := match hp' !! l with
                   | Some o => match port o with
                               | Some n => pretty n
                               | None => "undefined"
                               end
                   | None => "undefined"
                   end in
  (hp', add_log "info" ("Lambda handler listening on http://localhost:" +:+ port_text) w).

(** The listener over a sequence of requests, one after the other: the
    responses, and the exception that ended the process if there was
    one. *)
Fixpoint serve (h : Host) (l : nat) (reqs : list Request) (hp : Heap) (w : World)
  : list Res * option jsval * Heap * World :=
  match reqs with
  | [] => ([], None, hp, w)
  | req :: rest =>
      match handle_request h l req hp w with
      | (hp', w', Normal res) =>
          let '(rs, crash, hp'', w'') := serve h l rest hp' w' in
          (res :: rs, crash, hp'', w'')
      | (hp', w', Abrupt e) => ([], Some e, hp', w')
      end
  end.

(** The status and the body of an answer of the listener: 200 with
    [{ data }], or 500 with [{ error }]. *)
Definition answer_of (st : Z) (text : string) : Prop :=
  ∃ v, (st = 200 ∧ text = JSON.stringify_object [("data", v)]) ∨
       (st = 500 ∧ text = JSON.stringify_object [("error", v)]).

(** ** The logger of the module *)

(** [_logger != null && typeof _logger.transports != 'undefined'] *)
Definition is_logger (v : jsval) : bool :=
  match get_prop v "transports" with
  | Some VUndefined | None => false
  | Some _ => true
  end.

(** [setLogger], on the module's [logger] variable and the world: a
    value that passes the test becomes the logger, any other leaves it
    and makes a warning on the console. *)
Definition setLogger (_logger : jsval) (st : jsval * World) : jsval * World :=
  if is_logger _logger then (_logger, st.2)
  else (st.1, add_log "warn" "Invalid logger object ! Using default logger" st.2).

Definition getLogger (st : jsval * World) : jsval := st.1.

(** ** Sample data *)

Module Sample.

Definition no_options : Options :=
  {| event := None; lambdaFunc := None; lambdaPath := None; lambdaHandler := None;
     profilePath := None; profileName := None; region := None; environment := None;
     envdestroy := None; envfile := None; callbackWaitsForEmptyEventLoop := None;
     timeoutMs := None; verboseLevel := None; callback := None;
     clientContext := None; port := None |}.

(** [function (event, context, callback) { callback(null, event) }] *)
Definition echo : Handler :=
  fun _ ev => {| sync_calls := [CallDone VNull ev];
                 finish := Normal (Plain VUndefined); later := [] |}.

(** [function () { return v }] *)
Definition returning (v : jsval) : Handler :=
  fun _ _ => {| sync_calls := []; finish := Normal (Plain v); later := [] |}.

(** [function () { throw e }] *)
Definition throwing (e : jsval) : Handler :=
  fun _ _ => {| sync_calls := []; finish := Abrupt e; later := [] |}.

(** [function (event, context, callback) { callback(null, v); throw e }] *)
Definition done_then_throwing (v e : jsval) : Handler :=
  fun _ _ => {| sync_calls := [CallDone VNull v]; finish := Abrupt e; later := [] |}.

(** [function (event, context, callback) {
       setTimeout(function () { callback(null, v) }, 0); return 1 }] *)
Definition returning_then_calling (v : jsval) : Handler :=
  fun _ _ => {| sync_calls := []; finish := Normal (Plain (VNum 1 0));
                later := [ACall (CallDone VNull v)] |}.

(** [async function () { return v }], settling before anything else. *)
Definition resolving (v : jsval) : Handler :=
  fun _ _ => {| sync_calls := []; finish := Normal (Future (Fulfills v));
                later := [ASettle] |}.

Definition host : Host :=
  {| freemem := 8589934592; node_version := "v18.17.0"; node_major_version := 18;
     cwd := "/srv/app"; homedir := "/home/dev"; timeZone := "UTC";
     existsSync := fun _ => false;
     dotenv_file := fun _ => ∅;
     credentials_file := fun _ _ => ∅;
     modules := fun p => if decide (p = "/a/b/foo.js")
                         then Some {[ "bar" := echo ]}
                         else if decide (p = "/a/b/boom.js")
                         then Some {[ "handler" := throwing (VStr "boom") ]}
                         else None |}.

Definition world : World := {| env := ∅; loaded := []; logged := [] |}.

Definition with_func (m : Module') (o : Options) : Options :=
  {| event := event o; lambdaFunc := Some m; lambdaPath := lambdaPath o;
     lambdaHandler := lambdaHandler o; profilePath := profilePath o;
     profileName := profileName o; region := region o;
     environment := environment o; envdestroy := envdestroy o;
     envfile := envfile o;
     callbackWaitsForEmptyEventLoop := callbackWaitsForEmptyEventLoop o;
     timeoutMs := timeoutMs o; verboseLevel := verboseLevel o;
     callback := callback o; clientContext := clientContext o; port := port o |}.

Definition with_path (p name : string) (o : Options) : Options :=
  {| event := event o; lambdaFunc := lambdaFunc o; lambdaPath := Some p;
     lambdaHandler := Some name; profilePath := profilePath o;
     profileName := profileName o; region := region o;
     environment := environment o; envdestroy := envdestroy o;
     envfile := envfile o;
     callbackWaitsForEmptyEventLoop := callbackWaitsForEmptyEventLoop o;
     timeoutMs := timeoutMs o; verboseLevel := verboseLevel o;
     callback := callback o; clientContext := clientContext o; port := port o |}.

Definition with_name (name : string) (o : Options) : Options :=
  {| event := event o; lambdaFunc := lambdaFunc o; lambdaPath := lambdaPath o;
     lambdaHandler := Some name; profilePath := profilePath o;
     profileName := profileName o; region := region o;
     environment := environment o; envdestroy := envdestroy o;
     envfile := envfile o;
     callbackWaitsForEmptyEventLoop := callbackWaitsForEmptyEventLoop o;
     timeoutMs := timeoutMs o; verboseLevel := verboseLevel o;
     callback := callback o; clientContext := clientContext o; port := port o |}.

Definition with_client (c : jsval) (o : Options) : Options :=
  {| event := event o; lambdaFunc := lambdaFunc o; lambdaPath := lambdaPath o;
     lambdaHandler := lambdaHandler o; profilePath := profilePath o;
     profileName := profileName o; region := region o;
     environment := environment o; envdestroy := envdestroy o;
     envfile := envfile o;
     callbackWaitsForEmptyEventLoop := callbackWaitsForEmptyEventLoop o;
     timeoutMs := timeoutMs o; verboseLevel := verboseLevel o;
     callback := callback o; clientContext := Some c; port := port o |}.

(** Options with [lambdaFunc] an object whose one function is
    [handler]. *)
Definition func_options (f : Handler) : Options :=
  with_func {[ "handler" := f ]} no_options.

(** The text [{"event":0}]. *)
Definition body_event_zero : string :=
  "{" +:+ String JSON.dquote "event" +:+ String JSON.dquote ":0}".

(** The text [{}]. *)
Definition body_no_event : string := "{}".

(** The text [{"event":{"x":1}}]. *)
Definition body_event_x1 : string :=
  "{" +:+ String JSON.dquote "event" +:+ String JSON.dquote ":{"
  +:+ String JSON.dquote "x" +:+ String JSON.dquote ":1}}".

(** The text [{"data":{"y":2}}]. *)
Definition answer_y2 : string :=
  "{" +:+ String JSON.dquote "data" +:+ String JSON.dquote ":{"
  +:+ String JSON.dquote "y" +:+ String JSON.dquote ":2}}".

(** [function (event, context) { context.succeed(v) }] *)
Definition succeeding (v : jsval) : Handler :=
  fun _ _ => {| sync_calls := [CallSucceed v];
                finish := Normal (Plain VUndefined); later := [] |}.

Definition post (ct : option string) (text : string) : Request :=
  {| method := "POST"; host_header := Some "localhost:8008"; url := "/";
     content_type := ct; body := text |}.

Definition with_environment (vars : Env) (destroy : option bool) (o : Options)
  : Options :=
  {| event := event o; lambdaFunc := lambdaFunc o; lambdaPath := lambdaPath o;
     lambdaHandler := lambdaHandler o; profilePath := profilePath o;
     profileName := profileName o; region := region o;
     environment := Some vars; envdestroy := destroy;
     envfile := envfile o;
     callbackWaitsForEmptyEventLoop := callbackWaitsForEmptyEventLoop o;
     timeoutMs := timeoutMs o; verboseLevel := verboseLevel o;
     callback := callback o; clientContext := clientContext o; port := port o |}.

End Sample.

(** * Properties *)

(** ** Environment staging *)

Section staging.

Implicit Types (vars penv : Env) (k : string).

Lemma updateEnv_lookup vars penv k :
  updateEnv vars penv !! k =
    if truthy_str (penv !! k) then penv !! k
    else match vars !! k with Some v => Some v | None => penv !! k end.
Proof.
  unfold updateEnv. revert k.
  apply (map_fold_weak_ind
           (fun (r : Env) (m : Env) => ∀ k, r !! k =
              if truthy_str (penv !! k) then penv !! k
              else match m !! k with Some v => Some v | None => penv !! k end)).
  - intros k. rewrite lookup_empty. by destruct (truthy_str _).
  - intros i x m r Hi IH k.
    assert (Hri : r !! i = penv !! i).
    { rewrite IH, Hi. by destruct (truthy_str _). }
    rewrite Hri. destruct (decide (i = k)) as [->|Hne].
    + destruct (truthy_str (penv !! k)) eqn:Hk.
      * by rewrite IH, Hk.
      * by rewrite !lookup_insert_eq.
    + destruct (truthy_str (penv !! i)).
      * rewrite IH. by rewrite lookup_insert_ne.
      * rewrite !lookup_insert_ne by done. apply IH.
Qed.

Lemma set_all_lookup vars penv k :
  set_all vars penv !! k =
    match vars !! k with Some v => Some v | None => penv !! k end.
Proof.
  unfold set_all. revert k.
  apply (map_fold_weak_ind
           (fun (r : Env) (m : Env) => ∀ k, r !! k =
              match m !! k with Some v => Some v | None => penv !! k end)).
  - intros k. by rewrite lookup_empty.
  - intros i x m r Hi IH k. destruct (decide (i = k)) as [->|Hne].
    + by rewrite !lookup_insert_eq.
    + rewrite !lookup_insert_ne by done. apply IH.
Qed.

Lemma delete_all_lookup vars penv k :
  delete_all vars penv !! k =
    match vars !! k with Some _ => None | None => penv !! k end.
Proof.
  unfold delete_all. revert k.
  apply (map_fold_weak_ind
           (fun (r : Env) (m : Env) => ∀ k, r !! k =
              match m !! k with Some _ => None | None => penv !! k end)).
  - intros k. by rewrite lookup_empty.
  - intros i x m r Hi IH k. destruct (decide (i = k)) as [->|Hne].
    + by rewrite lookup_delete_eq, lookup_insert_eq.
    + rewrite lookup_delete_ne, lookup_insert_ne by done. apply IH.
Qed.

(** Staging that never replaces a defined variable. *)
Lemma stage_absent_lookup vars penv k :
  map_fold (fun key value (acc : Env) =>
              match acc !! key with Some _ => acc | None => <[key := value]> acc end)
           penv vars !! k =
    match penv !! k with Some v => Some v | None => vars !! k end.
Proof.
  revert k.
  apply (map_fold_weak_ind
           (fun (r : Env) (m : Env) => ∀ k, r !! k =
              match penv !! k with Some v => Some v | None => m !! k end)).
  - intros k. rewrite lookup_empty. by destruct (penv !! k).
  - intros i x m r Hi IH k.
    assert (Hri : r !! i = penv !! i).
    { rewrite IH, Hi. by destruct (penv !! i). }
    rewrite Hri. destruct (decide (i = k)) as [->|Hne].
    + destruct (penv !! k) eqn:Hk.
      * by rewrite IH, Hk.
      * by rewrite !lookup_insert_eq.
    + destruct (penv !! i).
      * rewrite IH. by rewrite lookup_insert_ne.
      * rewrite !lookup_insert_ne by done. apply IH.
Qed.

Lemma dotenv_config_lookup h file penv k :
  dotenv_config h file penv !! k =
    match penv !! k with Some v => Some v | None => dotenv_file h file !! k end.
Proof. apply stage_absent_lookup. Qed.

Lemma loadAWSCredentials_lookup h file profile penv k :
  loadAWSCredentials h file profile penv !! k =
    match penv !! k with Some v => Some v | None => credentials_file h file profile !! k end.
Proof. apply stage_absent_lookup. Qed.

Lemma truthy_str_Some s : truthy_str (Some s) = true ↔ s ≠ "".
Proof.
  simpl. destruct (String.eqb_spec s ""); simpl; split; intros; congruence.
Qed.

End staging.

Section region.

Implicit Types (penv : Env) (k : string).

Lemma stage_region_lookup reg penv k :
  region_var k →
  stage_region reg penv !! k =
    Some (default "us-east-1" (or_str reg (or_str (penv !! k) (Some "us-east-1")))).
Proof.
  unfold stage_region, stage_region_var. intros [-> | ->].
  - rewrite lookup_insert_ne by done. by rewrite lookup_insert_eq.
  - rewrite lookup_insert_eq. by rewrite lookup_insert_ne.
Qed.

Lemma optional_load_keeps h (b : bool) file profile penv k v :
  penv !! k = Some v →
  (if b then loadAWSCredentials h file profile penv else penv) !! k = Some v.
Proof.
  intros Hk. destruct b; [|done]. by rewrite loadAWSCredentials_lookup, Hk.
Qed.

Lemma load_profiles_keeps h o profile penv k v :
  penv !! k = Some v → load_profiles h o profile penv !! k = Some v.
Proof.
  intros Hk. unfold load_profiles.
  destruct (or_str _ _) as [f|].
  - apply (optional_load_keeps h (truthy_str (Some f))).
    by do 2 apply optional_load_keeps.
  - by do 2 apply optional_load_keeps.
Qed.

Lemma updateEnv_keeps vars penv k v :
  penv !! k = Some v → v ≠ "" → updateEnv vars penv !! k = Some v.
Proof.
  intros Hk Hv. rewrite updateEnv_lookup, Hk.
  by rewrite (proj2 (truthy_str_Some v) Hv).
Qed.

(** C5, as the code has it: after the staging, a region variable holds
    the region of the options when that is a non-empty string; otherwise
    the value the process environment holds for it when that is
    non-empty; and [us-east-1] when neither is, an empty value counting
    as none.  Staging the defaults leaves a region variable with a
    non-empty value as it is, and so does the whole staging before the
    region step unless the custom environment of the options names the
    variable. *)
Theorem region_resolution (h : Host) (o : Options) (penv : Env) (k : string) :
  region_var k →
  let before := env_before_region h o penv in
  let after := stage_environment h o penv in
  (∀ r, region o = Some r → r ≠ "" → after !! k = Some r) ∧
  (truthy_str (region o) = false →
     ∀ v, before !! k = Some v → v ≠ "" → after !! k = Some v) ∧
  (truthy_str (region o) = false → truthy_str (before !! k) = false →
     after !! k = Some "us-east-1") ∧
  (∀ v, penv !! k = Some v → v ≠ "" → updateEnv (envVars h o) penv !! k = Some v) ∧
  (∀ v, penv !! k = Some v → v ≠ "" →
     (∀ vars, environment o = Some vars → vars !! k = None) →
     before !! k = Some v).
Proof.
  intros Hk before after. subst after. unfold stage_environment.
  rewrite (stage_region_lookup _ _ _ Hk). fold before.
  repeat split.
  - intros r Hr Hne. rewrite Hr. unfold or_str at 1.
    by rewrite (proj2 (truthy_str_Some r) Hne).
  - intros Hreg v Hv Hne. unfold or_str at 1. rewrite Hreg.
    rewrite Hv. unfold or_str. by rewrite (proj2 (truthy_str_Some v) Hne).
  - intros Hreg Hbefore. unfold or_str. by rewrite Hreg, Hbefore.
  - intros v Hv Hne. by apply updateEnv_keeps.
  - intros v Hv Hne Hcustom. subst before. unfold env_before_region.
    apply load_profiles_keeps.
    assert (H1 : updateEnv (envVars h o) penv !! k = Some v) by by apply updateEnv_keeps.
    assert (H2 : match environment o with
                 | Some vars => set_all vars (updateEnv (envVars h o) penv)
                 | None => updateEnv (envVars h o) penv
                 end !! k = Some v).
    { destruct (environment o) as [vars|] eqn:Hvars; [|done].
      by rewrite set_all_lookup, (Hcustom vars eq_refl). }
    destruct (envfile o) as [f|]; [|done].
    by rewrite dotenv_config_lookup, H2.
Qed.

Lemma region_resolution_witness :
  stage_environment Sample.host Sample.no_options {[ "AWS_REGION" := "eu-west-1" ]}
    !! "AWS_REGION" = Some "eu-west-1".
Proof.
  pose proof (region_resolution Sample.host Sample.no_options
                {[ "AWS_REGION" := "eu-west-1" ]} "AWS_REGION" (or_introl eq_refl))
    as (_ & Hkeep & _ & _ & Hbefore).
  apply (Hkeep eq_refl "eu-west-1"); [|done].
  apply Hbefore; [done | done | discriminate].
Defined.

(** A region variable that is set to the empty string is overwritten
    with the default. *)
Lemma empty_region_is_overwritten :
  env_before_region Sample.host Sample.no_options {[ "AWS_REGION" := "" ]}
    !! "AWS_REGION" = Some "" ∧
  stage_environment Sample.host Sample.no_options {[ "AWS_REGION" := "" ]}
    !! "AWS_REGION" = Some "us-east-1".
Proof. split; vm_compute; reflexivity. Qed.

End region.

(** C10: a default is staged over a process variable whose value is the
    empty string, as over an absent one; only a non-empty value is left
    in place. *)
Theorem updateEnv_falsy_is_unset (vars penv : Env) (k v : string) :
  vars !! k = Some v →
  (penv !! k = Some "" → updateEnv vars penv !! k = Some v) ∧
  (penv !! k = None → updateEnv vars penv !! k = Some v) ∧
  (∀ s, penv !! k = Some s → s ≠ "" → updateEnv vars penv !! k = Some s).
Proof.
  intros Hv. repeat split.
  - intros Hk. by rewrite updateEnv_lookup, Hk, Hv.
  - intros Hk. by rewrite updateEnv_lookup, Hk, Hv.
  - intros s Hk Hne. by apply updateEnv_keeps.
Qed.

Lemma updateEnv_falsy_is_unset_witness :
  updateEnv (envVars Sample.host Sample.no_options) {[ "TZ" := "" ]} !! "TZ" = Some "UTC".
Proof.
  refine (proj1 (updateEnv_falsy_is_unset (envVars Sample.host Sample.no_options)
                   {[ "TZ" := "" ]} "TZ" "UTC" _) _); reflexivity.
Defined.

(** ** The handler identifier *)

Section path_lemmas.

Import Path.

Lemma take_while_stop {A} (f : A → bool) (l : list A) x r :
  Forall (λ c, f c = true) l → f x = false → take_while f (l ++ x :: r) = l.
Proof.
  intros Hall Hx. induction Hall as [|c l Hc _ IH]; simpl.
  - by rewrite Hx.
  - by rewrite Hc, IH.
Qed.

Lemma drop_while_head {A} (f : A → bool) x (l : list A) :
  f x = false → drop_while f (x :: l) = x :: l.
Proof. intros Hx. simpl. by rewrite Hx. Qed.

Lemma negb_true_all (f : ascii → bool) (l : list ascii) :
  Forall (λ c, f c = false) l → Forall (λ c, negb (f c) = true) (rev l).
Proof.
  intros H. apply Forall_rev. eapply Forall_impl; [exact H|].
  intros c Hc. simpl in Hc. by rewrite Hc.
Qed.

(** The last portion of [prefix/seg] is [seg]. *)
Lemma last_segment_after_slash (prefix seg : list ascii) :
  seg ≠ [] → no_slash seg → last_segment (prefix ++ slash :: seg) = seg.
Proof.
  intros Hne Hseg. unfold last_segment.
  rewrite rev_app_distr. simpl. rewrite <- app_assoc. simpl.
  destruct (rev seg) as [|c cs] eqn:Hrev.
  { apply (f_equal (@rev ascii)) in Hrev. rewrite rev_involutive in Hrev. done. }
  assert (Hall : Forall (λ c, negb (is_slash c) = true) (c :: cs)).
  { rewrite <- Hrev. by apply negb_true_all. }
  assert (Hc : is_slash c = false).
  { inversion Hall as [|? ? Hc' _]; subst. by destruct (is_slash c). }
  simpl app. rewrite drop_while_head by done.
  change (c :: (cs ++ slash :: rev prefix)%list) with ((c :: cs) ++ slash :: rev prefix)%list.
  rewrite take_while_stop; [|done|done].
  rewrite <- Hrev. apply rev_involutive.
Qed.

(** For a last portion [stem.ext] the extension is [.ext] and the base
    name without it is [stem]. *)
Lemma basename_without_extension (prefix stem ext : list ascii) :
  stem ≠ [] → no_slash stem → no_slash ext → no_dot ext →
  ¬ (stem = ["."%char] ∧ ext = []) →
  let path := string_of_list_ascii (prefix ++ slash :: stem ++ "."%char :: ext) in
  extname path = string_of_list_ascii ("."%char :: ext) ∧
  basename path (extname path) = string_of_list_ascii stem.
Proof.
  intros Hstem Hs1 Hs2 Hd Hdots path.
  set (seg := stem ++ "."%char :: ext).
  assert (Hseg : last_segment (list_ascii_of_string path) = seg).
  { subst path. rewrite list_ascii_of_string_of_list_ascii.
    apply last_segment_after_slash.
    - subst seg. by destruct stem.
    - subst seg. apply Forall_app. split; [done|]. by constructor. }
  assert (Hrev : rev seg = rev ext ++ "."%char :: rev stem).
  { subst seg. rewrite rev_app_distr. simpl. by rewrite <- app_assoc. }
  assert (Htake : take_while (λ c, negb (is_dot c)) (rev seg) = rev ext).
  { rewrite Hrev. apply take_while_stop; [by apply negb_true_all|done]. }
  assert (Hext : extname path = string_of_list_ascii ("."%char :: ext)).
  { unfold extname. rewrite Hseg, Htake.
    assert (Hlen : length seg = (length stem + S (length ext))%nat).
    { subst seg. rewrite length_app. done. }
    assert (Hpos : (0 < length stem)%nat) by (destruct stem; [done|simpl; lia]).
    rewrite length_rev.
    destruct (decide (length ext = length seg)) as [Heq|_]; [exfalso; lia|].
    assert (Hdrop : drop (S (length ext)) (rev seg) = rev stem).
    { rewrite Hrev, (cons_middle _ (rev ext)), app_assoc.
      apply drop_app_length'. rewrite length_app, length_rev. simpl. lia. }
    rewrite Hdrop.
    destruct (decide (rev stem = [])) as [Heq|_].
    { apply (f_equal (@rev ascii)) in Heq. rewrite rev_involutive in Heq. done. }
    destruct (decide (seg = ["."%char; "."%char])) as [Heq|_].
    { exfalso. apply Hdots. subst seg.
      destruct stem as [|a [|b stem']]; simpl in Heq; [done| |].
      - destruct ext; [|discriminate]. by inversion Heq.
      - destruct stem'; discriminate. }
    by rewrite rev_involutive. }
  split; [done|].
  rewrite Hext. unfold basename. rewrite Hseg.
  rewrite list_ascii_of_string_of_list_ascii.
  destruct (decide ("."%char :: ext = [])) as [?|_]; [done|].
  destruct (decide (string_of_list_ascii ("."%char :: ext) = path)) as [Heq|_].
  { exfalso. subst path.
    apply (f_equal list_ascii_of_string) in Heq.
    rewrite !list_ascii_of_string_of_list_ascii in Heq.
    apply (f_equal (@length ascii)) in Heq.
    rewrite length_app in Heq. simpl in Heq. rewrite length_app in Heq. simpl in Heq.
    destruct stem; [done|]. simpl in Heq. lia. }
  assert (Hlen : (length seg - length ("."%char :: ext) = length stem)%nat).
  { subst seg. rewrite length_app. simpl. lia. }
  rewrite Hlen.
  assert (Hdrop : drop (length stem) seg = "."%char :: ext).
  { subst seg. by rewrite drop_app_length. }
  assert (Htk : take (length stem) seg = stem).
  { subst seg. by rewrite take_app_length. }
  rewrite Hdrop, Htk.
  destruct (decide _) as [_|Hno]; [done|].
  exfalso. apply Hno. split; [done|].
  subst seg. rewrite length_app. simpl. destruct stem; [done|]. simpl. lia.
Qed.

End path_lemmas.

Lemma envVars_handler (h : Host) (o : Options) :
  envVars h o !! "_HANDLER" =
    Some (match resolved_path h o with
          | Some p => if truthy_str (Some p)
                      then Path.basename p (Path.extname p) else "index"
          | None => "index"
          end +:+ "." +:+ handler_name o).
Proof.
  unfold envVars. destruct (resolved_path h o) as [p|].
  - destruct (truthy_str (Some p)); by rewrite lookup_insert_eq.
  - by rewrite lookup_insert_eq.
Qed.

(** C4: the staged [_HANDLER] is the base name of the handler path
    without its extension, a dot and the export name, and [index], a dot
    and the export name when no path is given; [/a/b/foo.js] with [bar]
    gives [foo.bar], no path with [bar] gives [index.bar]. *)
Theorem handler_identifier (h : Host) (o : Options) :
  let name := handler_name o in
  (truthy_str (lambdaPath o) = false →
     envVars h o !! "_HANDLER" = Some ("index." +:+ name)) ∧
  (∀ p, lambdaPath o = Some p → p ≠ "" →
     let P := getAbsolutePath h p in
     P ≠ "" →
     envVars h o !! "_HANDLER" =
       Some (Path.basename P (Path.extname P) +:+ "." +:+ name)) ∧
  (∀ dir stem ext,
     stem ≠ [] → no_slash stem → no_slash ext → no_dot ext →
     ¬ (stem = ["."%char] ∧ ext = []) →
     lambdaPath o =
       Some (string_of_list_ascii (Path.slash :: dir ++ Path.slash :: stem ++ "."%char :: ext)) →
     envVars h o !! "_HANDLER" = Some (string_of_list_ascii stem +:+ "." +:+ name)) ∧
  (∀ penv : Env, truthy_str (penv !! "_HANDLER") = false →
     updateEnv (envVars h o) penv !! "_HANDLER" = envVars h o !! "_HANDLER") ∧
  envVars h (Sample.with_path "/a/b/foo.js" "bar" Sample.no_options) !! "_HANDLER"
    = Some "foo.bar" ∧
  envVars h (Sample.with_name "bar" Sample.no_options) !! "_HANDLER"
    = Some "index.bar".
Proof.
  intros name.
  assert (Hpath : ∀ p, lambdaPath o = Some p → p ≠ "" →
            getAbsolutePath h p ≠ "" →
            envVars h o !! "_HANDLER" =
              Some (Path.basename (getAbsolutePath h p)
                      (Path.extname (getAbsolutePath h p)) +:+ "." +:+ name)).
  { intros p Hp Hne HP. rewrite envVars_handler. unfold resolved_path.
    rewrite Hp. rewrite (proj2 (truthy_str_Some p) Hne).
    change (getAbsolutePath h <$> Some p) with (Some (getAbsolutePath h p)).
    cbv beta iota. by rewrite (proj2 (truthy_str_Some _) HP). }
  split; [|split; [|split; [|split; [|split]]]].
  - intros Hfalsy. rewrite envVars_handler. unfold resolved_path. rewrite Hfalsy.
    destruct (lambdaPath o) as [p|]; [|done]. by rewrite Hfalsy.
  - exact Hpath.
  - intros dir stem ext H1 H2 H3 H4 H5 Hp.
    pose proof (basename_without_extension (Path.slash :: dir) stem ext H1 H2 H3 H4 H5)
      as [_ Hbase].
    rewrite (Hpath _ Hp); [| done | done].
    simpl getAbsolutePath. simpl in Hbase. by rewrite Hbase.
  - intros penv Hfalsy. rewrite updateEnv_lookup, Hfalsy.
    rewrite envVars_handler. done.
  - rewrite envVars_handler. reflexivity.
  - rewrite envVars_handler. reflexivity.
Qed.

Lemma handler_identifier_witness :
  envVars Sample.host (Sample.with_path "lib/foo.test.js" "bar" Sample.no_options)
    !! "_HANDLER" = Some "foo.test.bar".
Proof.
  pose proof (handler_identifier Sample.host
                (Sample.with_path "lib/foo.test.js" "bar" Sample.no_options))
    as (_ & Hpath & _).
  apply (Hpath "lib/foo.test.js" eq_refl); discriminate.
Defined.

(** ** The completion guard *)

Section completion.


Lemma complete_stable c err value e0 v0 w :
  Context.completion_state c = Context.Completed e0 v0 → Context.complete err value c w = (c, w).
Proof. intros H. unfold Context.complete. by rewrite H. Qed.

Lemma complete_first c err value w :
  Context.completion_state c = Context.Pending →
  Context.completion_state (Context.complete err value c w).1 = Context.Completed err value ∧
  Context.delivered (Context.complete err value c w).1 = Context.delivered c ++ [(err, value)] ∧
  Context.finalized (Context.complete err value c w).1 = S (Context.finalized c) ∧
  Context.timer (Context.complete err value c w).1 = false ∧
  (Context.complete err value c w).2 = Context.finalCallback c w.
Proof. intros H. unfold Context.complete. rewrite H. simpl. done. Qed.

Lemma complete_completed c err value w :
  Context.completion_state (Context.complete err value c w).1 ≠ Context.Pending.
Proof.
  destruct (Context.completion_state c) eqn:H.
  - by rewrite (proj1 (complete_first c err value w H)).
  - by rewrite (complete_stable _ _ _ _ _ _ H); simpl; rewrite H.
Qed.

Lemma complete_once c err value w : once c → once (Context.complete err value c w).1.
Proof.
  intros Hc. destruct (Context.completion_state c) eqn:H.
  - destruct (complete_first c err value w H) as (Hs & Hd & Hf & _).
    unfold once in *. rewrite H in Hc. destruct Hc as [Hd0 Hf0].
    by rewrite Hs, Hd, Hf, Hd0, Hf0.
  - by rewrite (complete_stable _ _ _ _ _ _ H).
Qed.

Lemma expire_stable c e0 v0 w :
  Context.completion_state c = Context.Completed e0 v0 → Context.expire c w = (c, w).
Proof.
  intros H. unfold Context.expire. destruct (Context.timer c); [|done]. by eapply complete_stable.
Qed.

Lemma expire_once c w : once c → once (Context.expire c w).1.
Proof. intros Hc. unfold Context.expire. destruct (Context.timer c); [|done]. by apply complete_once. Qed.

Lemma expire_live c w : live c → Context.completion_state (Context.expire c w).1 ≠ Context.Pending.
Proof.
  intros [Hc|Ht]; unfold Context.expire.
  - destruct (Context.timer c); [|done].
    destruct (Context.completion_state c) eqn:H; [done|].
    by rewrite (complete_stable _ _ _ _ _ _ H); simpl; rewrite H.
  - rewrite Ht. apply complete_completed.
Qed.

Lemma complete_live c err value w : live (Context.complete err value c w).1.
Proof. left. apply complete_completed. Qed.

Lemma apply_call_stable k c e0 v0 w :
  Context.completion_state c = Context.Completed e0 v0 → apply_call k c w = (c, w).
Proof. intros H. destruct k; simpl; by eapply complete_stable. Qed.

Lemma apply_call_once k c w : once c → once (apply_call k c w).1.
Proof. intros H. destruct k; simpl; by apply complete_once. Qed.

Lemma apply_call_live k c w : live (apply_call k c w).1.
Proof. destruct k; simpl; apply complete_live. Qed.

Lemma apply_calls_cons k ks c w :
  apply_calls (k :: ks) c w = apply_calls ks (apply_call k c w).1 (apply_call k c w).2.
Proof. unfold apply_calls. simpl. by destruct (apply_call k c w). Qed.

Lemma apply_calls_once ks c w : once c → once (apply_calls ks c w).1.
Proof.
  revert c w. induction ks as [|k ks IH]; intros c w Hc; [done|].
  rewrite apply_calls_cons. by apply IH, apply_call_once.
Qed.

Lemma apply_calls_live ks c w : live c → live (apply_calls ks c w).1.
Proof.
  revert c w. induction ks as [|k ks IH]; intros c w Hc; [done|].
  rewrite apply_calls_cons. apply IH, apply_call_live.
Qed.

Lemma apply_calls_stable ks c e0 v0 w :
  Context.completion_state c = Context.Completed e0 v0 → apply_calls ks c w = (c, w).
Proof.
  intros H. induction ks as [|k ks IH]; [done|].
  by rewrite apply_calls_cons, (apply_call_stable _ _ _ _ _ H).
Qed.

Lemma async_step_once ev inv w :
  once (context inv) → once (context (async_step ev inv w).1).
Proof.
  intros H. destruct ev as [k| |]; simpl.
  - pose proof (apply_call_once k (context inv) w H).
    by destruct (apply_call k (context inv) w).
  - destruct (wired inv) as [[v|e]|]; [| |done].
    + pose proof (complete_once (context inv) VNull v w H).
      unfold Context.succeed. by destruct (Context.complete VNull v (context inv) w).
    + pose proof (complete_once (context inv) e VNull w H).
      unfold Context.fail. by destruct (Context.complete e VNull (context inv) w).
  - pose proof (expire_once (context inv) w H).
    by destruct (Context.expire (context inv) w).
Qed.

Lemma async_step_stable ev inv e0 v0 w :
  Context.completion_state (context inv) = Context.Completed e0 v0 →
  context (async_step ev inv w).1 = context inv ∧ (async_step ev inv w).2 = w.
Proof.
  intros H. destruct ev as [k| |]; simpl.
  - by rewrite (apply_call_stable _ _ _ _ _ H).
  - destruct (wired inv) as [[v|e]|]; [| |done].
    + unfold Context.succeed. by rewrite (complete_stable _ _ _ _ _ _ H).
    + unfold Context.fail. by rewrite (complete_stable _ _ _ _ _ _ H).
  - by rewrite (expire_stable _ _ _ _ H).
Qed.

Lemma async_step_live ev inv w :
  live (context inv) → live (context (async_step ev inv w).1).
Proof.
  intros H. destruct ev as [k| |]; simpl.
  - pose proof (apply_call_live k (context inv) w).
    by destruct (apply_call k (context inv) w).
  - destruct (wired inv) as [[v|e]|]; [| |done].
    + pose proof (complete_live (context inv) VNull v w).
      unfold Context.succeed. by destruct (Context.complete VNull v (context inv) w).
    + pose proof (complete_live (context inv) e VNull w).
      unfold Context.fail. by destruct (Context.complete e VNull (context inv) w).
  - pose proof (expire_live (context inv) w H).
    destruct (Context.expire (context inv) w). by left.
Qed.

Lemma run_events_cons ev evs inv w :
  run_events (ev :: evs) inv w =
    run_events evs (async_step ev inv w).1 (async_step ev inv w).2.
Proof. unfold run_events. simpl. by destruct (async_step ev inv w). Qed.

Lemma run_events_app evs1 evs2 inv w :
  run_events (evs1 ++ evs2) inv w =
    run_events evs2 (run_events evs1 inv w).1 (run_events evs1 inv w).2.
Proof.
  unfold run_events. rewrite fold_left_app.
  by destruct (fold_left _ evs1 (inv, w)).
Qed.

Lemma run_events_once evs inv w :
  once (context inv) → once (context (run_events evs inv w).1).
Proof.
  revert inv w. induction evs as [|ev evs IH]; intros inv w H; [done|].
  rewrite run_events_cons. by apply IH, async_step_once.
Qed.

Lemma run_events_live evs inv w :
  live (context inv) → live (context (run_events evs inv w).1).
Proof.
  revert inv w. induction evs as [|ev evs IH]; intros inv w H; [done|].
  rewrite run_events_cons. by apply IH, async_step_live.
Qed.

Lemma run_events_stable evs inv e0 v0 w :
  Context.completion_state (context inv) = Context.Completed e0 v0 →
  context (run_events evs inv w).1 = context inv ∧ (run_events evs inv w).2 = w.
Proof.
  revert inv w. induction evs as [|ev evs IH]; intros inv w H; [done|].
  rewrite run_events_cons.
  destruct (async_step_stable ev inv e0 v0 w H) as [Hc Hw].
  rewrite <- Hc in H. destruct (IH _ (async_step ev inv w).2 H) as [Hc' Hw'].
  by rewrite Hc', Hw', Hc, Hw.
Qed.

Lemma handle_result_inv r ctx w :
  once ctx → live ctx →
  once (handle_result r ctx w).1.1 ∧
  match (handle_result r ctx w).2 with
  | Normal _ => live (handle_result r ctx w).1.1
  | Abrupt _ => True
  end.
Proof.
  intros Ho Hl. unfold handle_result. destruct r as [v|s]; [|done].
  destruct (truthy v); [|done].
  destruct (truthy _); [done|].
  pose proof (complete_once ctx VNull VNull w Ho).
  pose proof (complete_live ctx VNull VNull w).
  unfold Context.succeed. by destruct (Context.complete VNull VNull ctx w).
Qed.

Lemma try_block_inv h o path ctx w :
  once ctx →
  once (try_block h o path ctx w).1.1.1 ∧
  match (try_block h o path ctx w).1.2 with
  | Normal _ => live (try_block h o path ctx w).1.1.1
  | Abrupt _ => True
  end.
Proof.
  intros Ho. unfold try_block.
  destruct (match lambdaFunc o with
            | Some m => (w, Normal m)
            | None => load_module h path w
            end) as [w1 [m|e]]; [|done].
  destruct (resolve_event o) as [ev|e]; [|done].
  destruct (m !! handler_name o) as [f|]; [|done].
  set (ctx1 := Context._init_timeout ctx).
  assert (Ho1 : once ctx1) by done.
  assert (Hl1 : live ctx1) by by right.
  pose proof (apply_calls_once (sync_calls (f (env w1) ev)) ctx1 w1 Ho1) as Ho2.
  pose proof (apply_calls_live (sync_calls (f (env w1) ev)) ctx1 w1 Hl1) as Hl2.
  destruct (apply_calls _ ctx1 w1) as [ctx2 w2]. simpl in Ho2, Hl2.
  destruct (finish (f (env w1) ev)) as [r|e]; [|done].
  pose proof (handle_result_inv r ctx2 w2 Ho2 Hl2) as H.
  by destruct (handle_result r ctx2 w2) as [[ctx3 w3] res].
Qed.

(** An invocation that [_executeSync] has started is consistent and will
    complete. *)
Lemma _executeSync_started h o w w1 inv :
  _executeSync h o w = (w1, Normal inv) →
  once (context inv) ∧ live (context inv).
Proof.
  unfold _executeSync.
  destruct (client_context o) as [client|e]; [|discriminate].
  destruct (_ && _); [discriminate|].
  set (w0 := staged_world h o w).
  set (ctx := new_context h o client).
  assert (Ho : once ctx) by (subst ctx; unfold new_context; by destruct (callback o)).
  pose proof (try_block_inv h o (resolved_path h o) ctx w0 Ho) as [Ho1 Hl1].
  destruct (try_block h o (resolved_path h o) ctx w0) as [[[ctx1 w2] res] todo].
  simpl in Ho1, Hl1. destruct res as [fut|e].
  - intros [= <- <-]. done.
  - pose proof (complete_once ctx1 e VNull w2 Ho1).
    pose proof (complete_live ctx1 e VNull w2).
    unfold Context.fail. destruct (Context.complete e VNull ctx1 w2).
    intros [= <- <-]. done.
Qed.

(** An invocation that has started ends in one completed state, which
    every observation on the way shows, or else shows it pending. *)
Lemma drain_completes_once (h : Host) (o : Options) (w w1 : World)
  (inv : Invocation) :
  _executeSync h o w = (w1, Normal inv) →
  ∃ err value,
    let final := context (drain inv w1).1 in
    let w2 := (drain inv w1).2 in
    Context.completion_state final = Context.Completed err value ∧
    Context.delivered final = [(err, value)] ∧
    Context.finalized final = 1%nat ∧
    future_of (Context.delivered final) =
      (if truthy err then PRejected err else PFulfilled value) ∧
    (∀ n, let c := context (observe_after n inv w1).1 in
          (Context.completion_state c = Context.Pending ∧ Context.delivered c = [] ∧ Context.finalized c = 0%nat) ∨
          (c = final ∧ (observe_after n inv w1).2 = w2)) ∧
    (∀ k, apply_call k final w2 = (final, w2)) ∧
    Context.expire final w2 = (final, w2).
Proof.
  intros Hstart. destruct (_executeSync_started _ _ _ _ _ Hstart) as [Ho Hl].
  assert (Hof : once (context (drain inv w1).1)) by by apply run_events_once.
  assert (Hdone : Context.completion_state (context (drain inv w1).1) ≠ Context.Pending).
  { unfold drain, schedule. rewrite run_events_app.
    unfold run_events at 1. simpl fold_left.
    set (st := run_events (agenda inv) (scheduled inv) w1).
    assert (Hlst : live (context st.1)) by by apply run_events_live.
    pose proof (expire_live (context st.1) st.2 Hlst).
    unfold async_step. by destruct (Context.expire (context st.1) st.2). }
  destruct (Context.completion_state (context (drain inv w1).1)) as [|err value] eqn:Hfinal;
    [done|].
  exists err, value. cbv zeta.
  unfold once in Hof. rewrite Hfinal in Hof. destruct Hof as [Hd Hf].
  repeat split; try done.
  - rewrite Hd. unfold future_of, future_callback. simpl. by destruct (truthy err).
  - intros n.
    assert (Hon : once (context (observe_after n inv w1).1)) by by apply run_events_once.
    destruct (Context.completion_state (context (observe_after n inv w1).1))
      as [|e0 v0] eqn:Hn.
    + left. unfold once in Hon. by rewrite Hn in Hon.
    + right.
      assert (Hsplit : drain inv w1 =
                run_events (drop n (schedule inv))
                  (observe_after n inv w1).1 (observe_after n inv w1).2).
      { unfold drain, observe_after. by rewrite <- run_events_app, take_drop. }
      rewrite Hsplit.
      by destruct (run_events_stable (drop n (schedule inv)) _ e0 v0
                     (observe_after n inv w1).2 Hn) as [-> ->].
  - intros k. by eapply apply_call_stable.
  - by eapply expire_stable.
Qed.


Lemma fire_stable p c e0 v0 w :
  Context.completion_state c = Context.Completed e0 v0 → fire p c w = (c, w).
Proof.
  intros H. destruct p as [k|[v|e]| |e|]; simpl.
  - by eapply apply_call_stable.
  - unfold Context.succeed. by eapply complete_stable.
  - unfold Context.fail. by eapply complete_stable.
  - unfold Context.succeed. by eapply complete_stable.
  - unfold Context.fail. by eapply complete_stable.
  - by eapply expire_stable.
Qed.

Lemma fire_all_cons p ps c w :
  fire_all (p :: ps) c w = fire_all ps (fire p c w).1 (fire p c w).2.
Proof. unfold fire_all. simpl. by destruct (fire p c w). Qed.

Lemma fire_all_app ps1 ps2 c w :
  fire_all (ps1 ++ ps2) c w = fire_all ps2 (fire_all ps1 c w).1 (fire_all ps1 c w).2.
Proof.
  unfold fire_all. rewrite fold_left_app.
  by destruct (fold_left _ ps1 (c, w)).
Qed.

Lemma fire_all_stable ps c e0 v0 w :
  Context.completion_state c = Context.Completed e0 v0 → fire_all ps c w = (c, w).
Proof.
  intros H. induction ps as [|p ps IH]; [done|].
  by rewrite fire_all_cons, (fire_stable _ _ _ _ _ H).
Qed.

(** Whichever path fires on a pending context whose timer is armed
    completes it. *)
Lemma fire_completes p c w :
  Context.timer c = true →
  Context.completion_state (fire p c w).1 ≠ Context.Pending.
Proof.
  intros Ht. destruct p as [k|[v|e]| |e|]; simpl.
  - destruct k; simpl; apply complete_completed.
  - apply complete_completed.
  - apply complete_completed.
  - apply complete_completed.
  - apply complete_completed.
  - unfold Context.expire. rewrite Ht. apply complete_completed.
Qed.

(** Of paths that fire one after the other on a context whose timer is
    armed, the first decides: the others find the context completed. *)
Lemma fire_all_first p ps c w :
  Context.timer c = true → fire_all (p :: ps) c w = fire p c w.
Proof.
  intros Ht. rewrite fire_all_cons.
  pose proof (fire_completes p c w Ht) as Hc.
  destruct (Context.completion_state (fire p c w).1) as [|e0 v0] eqn:Hs; [done|].
  rewrite (fire_all_stable _ _ _ _ _ Hs). by destruct (fire p c w).
Qed.

Lemma apply_calls_fire ks c w : apply_calls ks c w = fire_all (map ByCall ks) c w.
Proof.
  revert c w. induction ks as [|k ks IH]; intros c w; [done|].
  rewrite apply_calls_cons. simpl map. rewrite fire_all_cons. apply IH.
Qed.

(** The event loop fires the paths of its events, in their order. *)
Lemma run_events_fire evs inv w :
  (context (run_events evs inv w).1, (run_events evs inv w).2)
  = fire_all (async_paths (wired inv) evs) (context inv) w.
Proof.
  revert inv w. induction evs as [|ev evs IH]; intros inv w; [done|].
  rewrite run_events_cons, IH. destruct ev as [k| |]; simpl async_paths.
  - rewrite fire_all_cons. simpl. by destruct (apply_call k (context inv) w).
  - simpl. destruct (wired inv) as [[v|e]|] eqn:Hw; [| |by simpl; rewrite Hw].
    + rewrite fire_all_cons. simpl. by destruct (Context.succeed v (context inv) w).
    + rewrite fire_all_cons. simpl. by destruct (Context.fail e (context inv) w).
  - rewrite fire_all_cons. simpl. by destruct (Context.expire (context inv) w).
Qed.

(** What the scheduler does with the value a handler returns is the
    return path of that value. *)
Lemma handle_result_fire r ctx w :
  match (handle_result r ctx w).2 with
  | Normal fut =>
      fut = returned_future (Normal r) ∧
      (handle_result r ctx w).1 = fire_all (return_paths (Normal r)) ctx w
  | Abrupt e =>
      returned_future (Normal r) = None ∧
      (handle_result r ctx w).1 = (ctx, w) ∧ return_paths (Normal r) = [ByException e]
  end.
Proof.
  unfold handle_result, return_paths. destruct r as [v|s]; [|done].
  destruct (truthy v); [|done].
  destruct (truthy _); [done|].
  unfold fire_all. simpl. by destruct (Context.succeed VNull ctx w).
Qed.

(** Failing a pending context is the same before and after its timer is
    armed: the completion cancels the timer. *)
Lemma fail_armed e c w :
  Context.completion_state c = Context.Pending →
  Context.fail e c w = Context.fail e (Context._init_timeout c) w.
Proof. intros H. unfold Context.fail, Context.complete. simpl. by rewrite H. Qed.

Lemma async_paths_timer fut evs : async_paths fut (evs ++ [AExpire]) ≠ [].
Proof.
  revert fut. induction evs as [|ev evs IH]; intros fut; [done|].
  destruct ev as [k| |]; simpl; [done| |done].
  destruct fut; [done|apply IH].
Qed.

Lemma competing_paths_first p : ∃ first rest, competing_paths p = first :: rest.
Proof.
  destruct p as [[run|]|e]; simpl; [|by eexists _, _..].
  pose proof (async_paths_timer (returned_future (finish run)) (later run)) as H.
  destruct (async_paths _ _) as [|p ps]; [done|].
  destruct (map ByCall (sync_calls run) ++ return_paths (finish run) ++ p :: ps)
    as [|q qs] eqn:Hl; [|by eexists _, _].
  apply app_eq_nil in Hl as [_ Hl]. by apply app_eq_nil in Hl as [_ Hl].
Qed.

Lemma new_context_fresh h o client :
  Context.completion_state (new_context h o client) = Context.Pending.
Proof. unfold new_context. by destruct (callback o). Qed.

(** An invocation, run until the event loop is idle, has fired its
    competing paths in their order, from the pending context with its
    timer armed and the world in which the handler starts. *)
Lemma _executeSync_fires h o w w1 inv client :
  client_context o = Normal client →
  _executeSync h o w = (w1, Normal inv) →
  (context (drain inv w1).1, (drain inv w1).2)
  = fire_all (competing_paths (prepare h o w).2)
      (Context._init_timeout (new_context h o client)) (prepare h o w).1.
Proof.
  intros Hclient. unfold _executeSync, try_block, prepare. rewrite Hclient.
  destruct (_ && _); [discriminate|].
  pose proof (new_context_fresh h o client) as Hfresh.
  set (ctx := new_context h o client) in *.
  set (w0 := staged_world h o w).
  destruct (match lambdaFunc o with
            | Some m => (w0, Normal m)
            | None => load_module h (resolved_path h o) w0
            end) as [wl [m|e]].
  2:{ rewrite (fail_armed e ctx wl Hfresh).
      destruct (Context.fail e (Context._init_timeout ctx) wl) as [c2 w3] eqn:Hfail.
      intros [= <- <-]. unfold drain, schedule, scheduled. simpl agenda.
      rewrite run_events_fire. simpl. unfold fire_all. simpl. rewrite Hfail. simpl.
      pose proof (complete_completed (Context._init_timeout ctx) e VNull wl) as Hc.
      unfold Context.fail in Hfail. rewrite Hfail in Hc. simpl in Hc.
      destruct (Context.completion_state c2) as [|e0 v0] eqn:Hs; [done|].
      by rewrite (expire_stable _ _ _ _ Hs). }
  destruct (resolve_event o) as [ev|e].
  2:{ rewrite (fail_armed e ctx wl Hfresh).
      destruct (Context.fail e (Context._init_timeout ctx) wl) as [c2 w3] eqn:Hfail.
      intros [= <- <-]. unfold drain, schedule, scheduled. simpl agenda.
      rewrite run_events_fire. simpl. unfold fire_all. simpl. rewrite Hfail. simpl.
      pose proof (complete_completed (Context._init_timeout ctx) e VNull wl) as Hc.
      unfold Context.fail in Hfail. rewrite Hfail in Hc. simpl in Hc.
      destruct (Context.completion_state c2) as [|e0 v0] eqn:Hs; [done|].
      by rewrite (expire_stable _ _ _ _ Hs). }
  destruct (m !! handler_name o) as [f|]; simpl fmap.
  2:{ set (e := VError TypeError "lambdaFunc[lambdaHandler] is not a function").
      destruct (Context.fail e (Context._init_timeout ctx) wl) as [c2 w3] eqn:Hfail.
      intros [= <- <-]. unfold drain, schedule, scheduled. simpl agenda.
      rewrite run_events_fire. simpl. unfold fire_all. simpl. fold e. rewrite Hfail. simpl.
      pose proof (complete_completed (Context._init_timeout ctx) e VNull wl) as Hc.
      unfold Context.fail in Hfail. rewrite Hfail in Hc. simpl in Hc.
      destruct (Context.completion_state c2) as [|e0 v0] eqn:Hs; [done|].
      by rewrite (expire_stable _ _ _ _ Hs). }
  set (run := f (env wl) ev). simpl competing_paths. simpl fst.
  rewrite !fire_all_app, <- apply_calls_fire.
  destruct (apply_calls (sync_calls run) (Context._init_timeout ctx) wl) as [c2 w2].
  simpl fst. simpl snd.
  destruct (finish run) as [r|e].
  - pose proof (handle_result_fire r c2 w2) as Hr.
    destruct (handle_result r c2 w2) as [[c3 w3] [fut|e]]; cbn [fst snd] in Hr.
    + destruct Hr as [-> Hr]. rewrite <- Hr.
      intros [= <- <-]. unfold drain, schedule, scheduled. simpl.
      by rewrite run_events_fire.
    + destruct Hr as (-> & [= -> ->] & ->).
      change (fire_all [ByException e] c2 w2) with (Context.fail e c2 w2).
      destruct (Context.fail e c2 w2) as [c4 w4].
      intros [= <- <-]. unfold drain, schedule, scheduled. simpl.
      by rewrite run_events_fire.
  - change (fire_all (return_paths (Abrupt e)) c2 w2) with (Context.fail e c2 w2).
    destruct (Context.fail e c2 w2) as [c4 w4].
    intros [= <- <-]. unfold drain, schedule, scheduled. simpl.
    by rewrite run_events_fire.
Qed.

(** C1: an invocation that has started ends in exactly one completed
    state, whichever of the completion paths fire and in whichever
    order.  Of its competing paths (the completion calls of the handler
    body, its plain return or its exception, the settlement of the
    future it returned, later calls, the timer) the first to fire decides
    alone: the final context and world are those that this path leaves
    when it fires on the pending context.  The callback is called once,
    with that outcome, the finalisation hook runs once, every
    observation on the way shows the invocation pending or in that same
    completed state, and once it is completed every further path leaves
    context and world as they are. *)
Theorem exactly_once_completion (h : Host) (o : Options) (w w1 : World)
  (inv : Invocation) (client : jsval) :
  client_context o = Normal client →
  _executeSync h o w = (w1, Normal inv) →
  ∃ first rest err value,
    let armed := Context._init_timeout (new_context h o client) in
    let final := context (drain inv w1).1 in
    let w2 := (drain inv w1).2 in
    competing_paths (prepare h o w).2 = first :: rest ∧
    (final, w2) = fire first armed (prepare h o w).1 ∧
    Context.completion_state final = Context.Completed err value ∧
    Context.delivered final = [(err, value)] ∧
    Context.finalized final = 1%nat ∧
    future_of (Context.delivered final) =
      (if truthy err then PRejected err else PFulfilled value) ∧
    (∀ n, let c := context (observe_after n inv w1).1 in
          (Context.completion_state c = Context.Pending ∧ Context.delivered c = [] ∧ Context.finalized c = 0%nat) ∨
          (c = final ∧ (observe_after n inv w1).2 = w2)) ∧
    (∀ p, fire p final w2 = (final, w2)).
Proof.
  intros Hclient Hstart.
  destruct (drain_completes_once h o w w1 inv Hstart)
    as (err & value & Hs & Hd & Hf & Hfut & Hobs & _ & _).
  destruct (competing_paths_first (prepare h o w).2) as (first & rest & Hpaths).
  exists first, rest, err, value. cbv zeta.
  split; [done|]. split.
  { rewrite (_executeSync_fires h o w w1 inv client Hclient Hstart), Hpaths.
    by apply fire_all_first. }
  repeat split; try done.
  intros p. by eapply fire_stable.
Qed.

Lemma exactly_once_completion_witness :
  ∃ inv w1,
    _executeSync Sample.host
      (Sample.func_options (Sample.returning_then_calling (VStr "late")))
      Sample.world = (w1, Normal inv) ∧
    competing_paths
      (prepare Sample.host
         (Sample.func_options (Sample.returning_then_calling (VStr "late")))
         Sample.world).2
      = [ByReturn; ByCall (CallDone VNull (VStr "late")); ByTimeout] ∧
    Context.delivered (context (drain inv w1).1) = [(VNull, VNull)].
Proof.
  eexists _, _. split; [reflexivity|]. split; [reflexivity|].
  destruct (exactly_once_completion Sample.host
              (Sample.func_options (Sample.returning_then_calling (VStr "late")))
              Sample.world _ _ VNull eq_refl eq_refl)
    as (first & rest & err & value & Hpaths & Hfire & _).
  injection Hpaths as <- _.
  exact (f_equal (λ st, Context.delivered st.1) Hfire).
Defined.

End completion.

(** ** The scheduler and the way a handler ends *)

Section in_memory_handler.

Variables (h : Host) (o : Options) (w : World).
Variables (client : jsval) (m : Module') (f : Handler) (ev : jsval).

(** The options pass the validation and name an in-memory handler. *)
Hypothesis Hclient : client_context o = Normal client.
Hypothesis Hfunc : lambdaFunc o = Some m.
Hypothesis Hpath : truthy_str (lambdaPath o) = false.
Hypothesis Hevent : resolve_event o = Normal ev.
Hypothesis Hexport : m !! handler_name o = Some f.

(** The run of the handler on the staged environment, and the context
    when its body starts. *)
Let run : HandlerRun := f (env (staged_world h o w)) ev.
Let armed : Context.t := Context._init_timeout (new_context h o client).

Lemma new_context_pending :
  Context.completion_state armed = Context.Pending ∧
  Context.delivered armed = [] ∧ Context.finalized armed = 0%nat.
Proof. subst armed. unfold new_context. by destruct (callback o). Qed.

Lemma _executeSync_runs :
  _executeSync h o w =
    let '(ctx2, w2) := apply_calls (sync_calls run) armed (staged_world h o w) in
    match finish run with
    | Abrupt e =>
        let '(ctx3, w3) := Context.fail e ctx2 w2 in
        (w3, Normal {| context := ctx3; wired := None; agenda := later run |})
    | Normal r =>
        let '(ctx3, w3, res) := handle_result r ctx2 w2 in
        match res with
        | Normal fut =>
            (w3, Normal {| context := ctx3; wired := fut; agenda := later run |})
        | Abrupt e =>
            let '(ctx4, w4) := Context.fail e ctx3 w3 in
            (w4, Normal {| context := ctx4; wired := None; agenda := later run |})
        end
    end.
Proof.
  unfold _executeSync, try_block.
  rewrite Hclient, Hfunc, Hpath, andb_false_r. cbv beta iota.
  rewrite Hevent. cbv beta iota zeta. rewrite Hexport.
  fold armed. fold run.
  destruct (apply_calls (sync_calls run) armed (staged_world h o w)) as [ctx2 w2].
  destruct (finish run) as [r|e]; [|done].
  by destruct (handle_result r ctx2 w2) as [[ctx3 w3] [fut|e]].
Qed.

(** C2, as the code has it: a handler body that makes no completion call
    and returns a plain value completes the invocation at once, as a
    success with a null payload, when the value is truthy and its [then]
    is falsy; a falsy value makes no completion: the invocation is
    pending when [_executeSync] returns, with its timer armed, and the
    timeout ends it unless a later completion call comes first. *)
Theorem plain_return (v : jsval) :
  sync_calls run = [] →
  finish run = Normal (Plain v) →
  ∃ inv w1,
    _executeSync h o w = (w1, Normal inv) ∧
    (truthy v = true → truthy (default VUndefined (get_prop v "then")) = false →
       Context.completion_state (context inv) = Context.Completed VNull VNull ∧
       Context.delivered (context inv) = [(VNull, VNull)] ∧
       Context.finalized (context inv) = 1%nat) ∧
    (truthy v = false →
       Context.completion_state (context inv) = Context.Pending ∧
       Context.delivered (context inv) = [] ∧
       Context.timer (context inv) = true ∧
       wired inv = None ∧
       (later run = [] →
          Context.completion_state (context (drain inv w1).1)
            = Context.Completed Context.timeout_error VNull)).
Proof.
  intros Hcalls Hfinish.
  destruct new_context_pending as (Hp & Hd & Hf).
  rewrite _executeSync_runs, Hcalls, Hfinish. unfold apply_calls. simpl fold_left.
  unfold handle_result. destruct (truthy v) eqn:Hv.
  - destruct (truthy (default VUndefined (get_prop v "then"))) eqn:Hthen.
    + destruct (Context.fail _ armed (staged_world h o w)) as [ctx4 w4].
      eexists _, _. split; [done|]. split; [done|]. discriminate.
    + destruct (complete_first armed VNull VNull (staged_world h o w) Hp)
        as (Hs & Hd' & Hf' & _).
      rewrite Hd in Hd'. rewrite Hf in Hf'.
      unfold Context.succeed.
      destruct (Context.complete VNull VNull armed (staged_world h o w)) as [ctx3 w3].
      cbn [fst] in Hs, Hd', Hf'.
      eexists _, _. split; [done|]. split; [|discriminate].
      intros _ _. cbn [context]. by rewrite Hs, Hd', Hf'.
  - eexists _, _. split; [done|]. split; [discriminate|].
    intros _. simpl. repeat split; try done.
    intros Hlater. unfold drain, schedule, scheduled. simpl. rewrite Hlater.
    unfold run_events. simpl. unfold Context.expire.
    change (Context.timer armed) with true. cbv iota.
    pose proof (proj1 (complete_first armed Context.timeout_error VNull
                         (staged_world h o w) Hp)) as Hs.
    by destruct (Context.complete Context.timeout_error VNull armed (staged_world h o w)).
Qed.

(** An exception of the handler body is caught and given to [fail];
    [_executeSync] returns. *)
End in_memory_handler.

Lemma execute_callback h l hp w o cb :
  hp !! l = Some o → callback o = Some cb →
  execute h l hp w =
    (hp, (_executeSync h o w).1,
     match (_executeSync h o w).2 with
     | Normal inv => ExecReturned inv
     | Abrupt e => ExecThrew e
     end).
Proof.
  intros Hl Hcb. unfold execute. rewrite Hl, Hcb.
  by destruct (_executeSync h o w) as [w' [inv|e]].
Qed.

Lemma execute_future h l (hp : Heap) w o :
  hp !! l = Some o → callback o = None →
  execute h l hp w =
    (<[fresh (dom hp) := with_callback FutureCallback o]> hp,
     (_executeSync h (with_callback FutureCallback o) w).1,
     ExecFuture (_executeSync h (with_callback FutureCallback o) w).2).
Proof.
  intros Hl Hcb. unfold execute. rewrite Hl, Hcb.
  rewrite alter_insert_eq, lookup_insert_eq.
  by destruct (_executeSync h (with_callback FutureCallback o) w).
Qed.

Lemma drain_completed inv w e v :
  Context.completion_state (context inv) = Context.Completed e v →
  context (drain inv w).1 = context inv ∧ (drain inv w).2 = w.
Proof.
  intros H. unfold drain.
  by destruct (run_events_stable (schedule inv) (scheduled inv) e v w H) as [-> ->].
Qed.

(** The scheduler on options that pass the validation and reach a
    handler, in memory or loaded from a file. *)
Lemma _executeSync_prepared h o w w0 client run :
  client_context o = Normal client →
  both_sources o = false →
  prepare h o w = (w0, Normal (Some run)) →
  _executeSync h o w =
    let '(ctx2, w2) :=
      apply_calls (sync_calls run) (Context._init_timeout (new_context h o client)) w0 in
    match finish run with
    | Abrupt e =>
        let '(ctx3, w3) := Context.fail e ctx2 w2 in
        (w3, Normal {| context := ctx3; wired := None; agenda := later run |})
    | Normal r =>
        let '(ctx3, w3, res) := handle_result r ctx2 w2 in
        match res with
        | Normal fut =>
            (w3, Normal {| context := ctx3; wired := fut; agenda := later run |})
        | Abrupt e =>
            let '(ctx4, w4) := Context.fail e ctx3 w3 in
            (w4, Normal {| context := ctx4; wired := None; agenda := later run |})
        end
    end.
Proof.
  intros Hclient Hboth. unfold both_sources in Hboth.
  unfold _executeSync, try_block, prepare. rewrite Hclient, Hboth.
  destruct (match lambdaFunc o with
            | Some m => (staged_world h o w, Normal m)
            | None => load_module h (resolved_path h o) (staged_world h o w)
            end) as [wl [m|e]]; [|discriminate].
  destruct (resolve_event o) as [ev|e]; [|discriminate].
  destruct (m !! handler_name o) as [f|]; [|discriminate].
  simpl fmap. intros [= <- <-].
  destruct (apply_calls _ _ wl) as [ctx2 w2].
  destruct (finish (f (env wl) ev)) as [r|e]; [|done].
  by destruct (handle_result r ctx2 w2) as [[ctx3 w3] [fut|e]].
Qed.

(** C8, as the code has it: an exception of the handler body is caught
    and given to [fail], and [execute] returns, in callback style and in
    future style, whether the handler is given in memory or loaded from
    a file.  When no completion call came before, the error is the
    outcome: the callback is called once and gets it as its first
    argument, and the future is rejected with it when it is truthy. *)
Theorem handler_exception (h : Host) (l : nat) (hp : Heap) (w w0 : World)
  (o : Options) (client : jsval) (run : HandlerRun) (e : jsval) :
  hp !! l = Some o →
  client_context o = Normal client →
  both_sources o = false →
  prepare h o w = (w0, Normal (Some run)) →
  finish run = Abrupt e →
  let armed := Context._init_timeout (new_context h (effective_options o) client) in
  ∃ hp' w1 inv,
    execute h l hp w =
      (hp', w1, match callback o with
                | Some _ => ExecReturned inv
                | None => ExecFuture (Normal inv)
                end) ∧
    (context inv, w1) =
      Context.fail e (apply_calls (sync_calls run) armed w0).1
                     (apply_calls (sync_calls run) armed w0).2 ∧
    (sync_calls run = [] →
       map fst (Context.delivered (context inv)) = [e] ∧
       match callback o with
       | Some _ =>
           ∃ value, observe (ExecReturned inv) w1 = (w1, Called [(e, value)])
       | None =>
           truthy e = true →
           observe (ExecFuture (Normal inv)) w1 = (w1, Settled (PRejected e))
       end).
Proof.
  intros Hl Hclient Hboth Hprepare Hfinish armed.
  assert (Hrun : ∀ o', client_context o' = Normal client → both_sources o' = false →
                       prepare h o' w = (w0, Normal (Some run)) →
                       ∃ inv w1,
                         _executeSync h o' w = (w1, Normal inv) ∧
                         (context inv, w1) =
                           Context.fail e
                             (apply_calls (sync_calls run)
                                (Context._init_timeout (new_context h o' client)) w0).1
                             (apply_calls (sync_calls run)
                                (Context._init_timeout (new_context h o' client)) w0).2 ∧
                         (sync_calls run = [] →
                            ∃ value,
                              Context.completion_state (context inv)
                                = Context.Completed e value ∧
                              Context.delivered (context inv) = [(e, value)])).
  { intros o' Hc Hb Hp.
    rewrite (_executeSync_prepared h o' w w0 client run Hc Hb Hp), Hfinish.
    pose proof (new_context_fresh h o' client) as Hfresh.
    assert (Hnone : Context.delivered (Context._init_timeout (new_context h o' client)) = [])
      by (unfold new_context; by destruct (callback o')).
    destruct (apply_calls _ _ w0) as [ctx2 w2] eqn:Hcalls. cbn [fst snd].
    destruct (Context.fail e ctx2 w2) as [ctx3 w3] eqn:Hfail.
    eexists _, _. split; [done|]. split; [done|].
    intros Hsync. rewrite Hsync in Hcalls. injection Hcalls as <- <-.
    destruct (complete_first (Context._init_timeout (new_context h o' client))
                e VNull w0 Hfresh) as (Hs & Hd & _).
    unfold Context.fail in Hfail. rewrite Hfail in Hs, Hd. cbn [fst] in Hs, Hd.
    rewrite Hnone in Hd. by eexists. }
  subst armed. unfold effective_options.
  destruct (callback o) as [cb|] eqn:Hcb.
  - destruct (Hrun o Hclient Hboth Hprepare) as (inv & w1 & Hexec & Hfail & Hfirst).
    exists hp, w1, inv. rewrite (execute_callback _ _ _ _ _ _ Hl Hcb), Hexec.
    split; [done|]. split; [done|].
    intros Hsync. destruct (Hfirst Hsync) as (value & Hs & Hd).
    split; [by rewrite Hd|]. exists value.
    unfold observe. destruct (drain_completed inv w1 _ _ Hs) as [Hc Hw].
    destruct (drain inv w1) as [inv' w']. simpl in Hc, Hw. by rewrite Hc, Hw, Hd.
  - destruct (Hrun (with_callback FutureCallback o) Hclient Hboth Hprepare)
      as (inv & w1 & Hexec & Hfail & Hfirst).
    eexists _, w1, inv. rewrite (execute_future _ _ _ _ _ Hl Hcb), Hexec.
    split; [done|]. split; [done|].
    intros Hsync. destruct (Hfirst Hsync) as (value & Hs & Hd).
    split; [by rewrite Hd|]. intros Htruthy.
    unfold observe. destruct (drain_completed inv w1 _ _ Hs) as [Hc Hw].
    destruct (drain inv w1) as [inv' w']. simpl in Hc, Hw. rewrite Hc, Hw, Hd.
    unfold future_of, future_callback. simpl. by rewrite Htruthy.
Qed.

Lemma handler_exception_witness :
  ∃ hp' w1 inv,
    execute Sample.host 0
      {[ 0%nat := Sample.with_path "/a/b/boom.js" "handler" Sample.no_options ]}
      Sample.world = (hp', w1, ExecFuture (Normal inv)) ∧
    observe (ExecFuture (Normal inv)) w1 = (w1, Settled (PRejected (VStr "boom"))).
Proof.
  assert (Hl : ({[ 0%nat := Sample.with_path "/a/b/boom.js" "handler" Sample.no_options ]}
                  : Heap) !! 0%nat
               = Some (Sample.with_path "/a/b/boom.js" "handler" Sample.no_options))
    by (vm_compute; reflexivity).
  destruct (handler_exception Sample.host 0
              {[ 0%nat := Sample.with_path "/a/b/boom.js" "handler" Sample.no_options ]}
              Sample.world _ (Sample.with_path "/a/b/boom.js" "handler" Sample.no_options)
              VNull _ (VStr "boom")
              Hl eq_refl eq_refl eq_refl eq_refl)
    as (hp' & w1 & inv & Hexec & _ & Hfirst).
  exists hp', w1, inv. split; [exact Hexec|]. exact (proj2 (Hfirst eq_refl) eq_refl).
Defined.

(** Two handlers whose exception is not the outcome.  One completes and
    then throws: the future is fulfilled with the value of the
    completion, and the exception reaches nobody.  The other throws a
    falsy value, [0]: the future is not rejected. *)
Lemma exception_after_completion_is_dropped :
  (let '(_, w1, r) :=
     execute Sample.host 0
       {[ 0%nat := Sample.func_options
                     (Sample.done_then_throwing (VStr "ok") (VError PlainError "boom")) ]}
       Sample.world in
   (observe r w1).2) = Settled (PFulfilled (VStr "ok")) ∧
  (let '(_, w1, r) :=
     execute Sample.host 0
       {[ 0%nat := Sample.func_options (Sample.throwing (VNum 0 0)) ]}
       Sample.world in
   (observe r w1).2) ≠ Settled (PRejected (VNum 0 0)).
Proof. split; [vm_compute; reflexivity|vm_compute; discriminate]. Qed.

Lemma plain_return_witness :
  ∃ inv w1,
    _executeSync Sample.host (Sample.func_options (Sample.returning (VNum 1 0)))
      Sample.world = (w1, Normal inv) ∧
    Context.completion_state (context inv) = Context.Completed VNull VNull.
Proof.
  destruct (plain_return Sample.host (Sample.func_options (Sample.returning (VNum 1 0)))
              Sample.world VNull {[ "handler" := Sample.returning (VNum 1 0) ]}
              (Sample.returning (VNum 1 0)) VUndefined
              eq_refl eq_refl eq_refl eq_refl eq_refl (VNum 1 0) eq_refl eq_refl)
    as (inv & w1 & Hrun & Htruthy & _).
  exists inv, w1. split; [exact Hrun|]. exact (proj1 (Htruthy eq_refl eq_refl)).
Defined.

(** A handler that returns [0]: nothing is completed when
    [_executeSync] returns, and what the caller gets in the end is the
    timeout, not a success. *)
Lemma falsy_return_is_no_success :
  (∃ inv w1,
     _executeSync Sample.host (Sample.func_options (Sample.returning (VNum 0 0)))
       Sample.world = (w1, Normal inv) ∧
     Context.completion_state (context inv) = Context.Pending) ∧
  (let '(_, w1, r) :=
     execute Sample.host 0
       {[ 0%nat := Sample.func_options (Sample.returning (VNum 0 0)) ]} Sample.world in
   (observe r w1).2) = Settled (PRejected Context.timeout_error).
Proof.
  split.
  - eexists _, _. split; reflexivity.
  - vm_compute. reflexivity.
Qed.

(** ** Validation and the caller's options *)

Lemma client_context_error o e : client_context o = Abrupt e → e = parse_error.
Proof.
  unfold client_context. destruct (clientContext o) as [v|]; [|discriminate].
  destruct (truthy v); [|discriminate].
  destruct v; try discriminate.
  destruct (JSON.parse s); [discriminate|]. by intros [= <-].
Qed.

(** C3, as the code has it: options with both [lambdaFunc] and a
    non-empty [lambdaPath] make [_executeSync] throw before anything is
    staged or loaded: the world is the one [execute] was called in.  The
    error is the one about the two options, unless the client context is
    a string that does not parse, whose error comes first.  [execute]
    throws it in callback style and returns a rejected future
    otherwise; the caller's options stay as they are. *)
Theorem both_handler_sources (h : Host) (l : nat) (hp : Heap) (w : World)
  (o : Options) :
  hp !! l = Some o →
  is_Some (lambdaFunc o) →
  truthy_str (lambdaPath o) = true →
  ∃ e hp',
    execute h l hp w =
      (hp', w, match callback o with
               | Some _ => ExecThrew e
               | None => ExecFuture (Abrupt e)
               end) ∧
    hp' !! l = Some o ∧
    match client_context o with
    | Normal _ => e = both_error
    | Abrupt _ => e = parse_error
    end.
Proof.
  intros Hl Hfunc Hpath.
  assert (Hsync : ∀ cb : option Callback, ∃ e,
            _executeSync h (match cb with
                            | Some _ => o
                            | None => with_callback FutureCallback o
                            end) w = (w, Abrupt e) ∧
            match client_context o with
            | Normal _ => e = both_error
            | Abrupt _ => e = parse_error
            end).
  { intros cb. unfold _executeSync.
    replace (client_context (match cb with
                             | Some _ => o
                             | None => with_callback FutureCallback o
                             end)) with (client_context o) by by destruct cb.
    destruct (client_context o) as [client|e] eqn:Hclient.
    - exists both_error. split; [|done].
      replace (lambdaFunc (match cb with
                           | Some _ => o
                           | None => with_callback FutureCallback o
                           end)) with (lambdaFunc o) by by destruct cb.
      replace (lambdaPath (match cb with
                           | Some _ => o
                           | None => with_callback FutureCallback o
                           end)) with (lambdaPath o) by by destruct cb.
      by rewrite (bool_decide_eq_true_2 _ Hfunc), Hpath.
    - exists e. split; [done|]. by eapply client_context_error. }
  destruct (callback o) as [cb|] eqn:Hcb.
  - destruct (Hsync (Some cb)) as (e & Hrun & He).
    exists e, hp. rewrite (execute_callback _ _ _ _ _ _ Hl Hcb), Hrun. done.
  - destruct (Hsync None) as (e & Hrun & He).
    exists e. eexists. rewrite (execute_future _ _ _ _ _ Hl Hcb), Hrun.
    split; [done|]. split; [|done].
    rewrite lookup_insert_ne; [done|].
    intros <-. apply (is_fresh (dom hp)). apply elem_of_dom. by rewrite Hl.
Qed.

Lemma both_handler_sources_witness :
  ∃ hp',
    execute Sample.host 0
      {[ 0%nat := Sample.with_path "/a/b/foo.js" "bar" (Sample.func_options Sample.echo) ]}
      Sample.world = (hp', Sample.world, ExecFuture (Abrupt both_error)).
Proof.
  assert (Hl : ({[ 0%nat := Sample.with_path "/a/b/foo.js" "bar"
                               (Sample.func_options Sample.echo) ]} : Heap) !! 0%nat
               = Some (Sample.with_path "/a/b/foo.js" "bar"
                         (Sample.func_options Sample.echo)))
    by (vm_compute; reflexivity).
  destruct (both_handler_sources Sample.host 0 _ Sample.world _ Hl
              (ex_intro _ _ eq_refl) eq_refl) as (e & hp' & Hexec & _ & He).
  exists hp'. simpl in He. by rewrite <- He.
Defined.

(** Both options and a client context that is no JSON text: the error
    is the one about the client context. *)
Lemma invalid_client_context_comes_first :
  (execute Sample.host 0
     {[ 0%nat := with_callback UserCallback
                   (Sample.with_client (VStr "{")
                      (Sample.with_path "/a/b/foo.js" "bar"
                         (Sample.func_options Sample.echo))) ]}
     Sample.world).2 = ExecThrew parse_error ∧
  parse_error ≠ both_error.
Proof. split; [vm_compute; reflexivity | discriminate]. Qed.

(** C7: without a callback [execute] returns a future; the options are
    copied into a new object, the callback is installed on the copy,
    and the copy is what [_executeSync] gets.  The caller's object, and
    every other object there was, is as before. *)
Theorem future_style_copies_options (h : Host) (l : nat) (hp : Heap) (w : World)
  (o : Options) :
  hp !! l = Some o →
  callback o = None →
  ∃ hp' w' r lc,
    execute h l hp w = (hp', w', ExecFuture r) ∧
    hp !! lc = None ∧
    hp' = <[lc := with_callback FutureCallback o]> hp ∧
    hp' !! l = Some o ∧
    (∀ l0 o0, hp !! l0 = Some o0 → hp' !! l0 = Some o0) ∧
    _executeSync h (with_callback FutureCallback o) w = (w', r).
Proof.
  intros Hl Hcb. rewrite (execute_future _ _ _ _ _ Hl Hcb).
  assert (Hfresh : hp !! fresh (dom hp) = None).
  { apply not_elem_of_dom. apply is_fresh. }
  eexists _, _, _, (fresh (dom hp)). split; [done|]. split; [done|]. split; [done|].
  assert (Hkeep : ∀ l0 o0, hp !! l0 = Some o0 →
            <[fresh (dom hp) := with_callback FutureCallback o]> hp !! l0 = Some o0).
  { intros l0 o0 H0. rewrite lookup_insert_ne; [done|]. intros <-. congruence. }
  split; [by apply Hkeep|]. split; [done|].
  by destruct (_executeSync h (with_callback FutureCallback o) w).
Qed.

Lemma future_style_copies_options_witness :
  (execute Sample.host 0 {[ 0%nat := Sample.func_options Sample.echo ]} Sample.world).1.1
    !! 0%nat = Some (Sample.func_options Sample.echo).
Proof.
  assert (Hl : ({[ 0%nat := Sample.func_options Sample.echo ]} : Heap) !! 0%nat
               = Some (Sample.func_options Sample.echo))
    by (vm_compute; reflexivity).
  destruct (future_style_copies_options Sample.host 0 _ Sample.world _ Hl eq_refl)
    as (hp' & w' & r & lc & Hexec & _ & _ & Hsame & _).
  by rewrite Hexec.
Defined.

(** ** The HTTP front end *)

(** A request with the body [{"event":{"x":1}}] for a handler that
    succeeds with [{"y":2}] is answered 200 with [{"data":{"y":2}}]. *)
Example watch_round_trip :
  (handle_request Sample.host 0
     (Sample.post (Some "application/json") Sample.body_event_x1)
     {[ 0%nat := Sample.func_options (Sample.succeeding (VObj [("y", VNum 2 0)])) ]}
     Sample.world).2
  = Normal {| statusCode := 200; sent := [(200, Sample.answer_y2)] |}.
Proof. vm_compute. reflexivity. Qed.

(** A body that is no JSON text throws inside the listener of the [end]
    event, where nothing catches it: the requests that follow get no
    answer. *)
Example malformed_body_ends_listener :
  (serve Sample.host 0
     [Sample.post (Some "application/json") "nope";
      Sample.post (Some "application/json") Sample.body_event_x1]
     {[ 0%nat := Sample.func_options Sample.echo ]} Sample.world).1.1
  = ([], Some (VError SyntaxError "Unexpected token in JSON")).
Proof. vm_compute. reflexivity. Qed.

(** C6: a request whose content type is not exactly [application/json]
    is answered with status 500 and the JSON text of an object whose
    [error] names the header that is required; a warning is logged,
    nothing else changes, and the listener goes on with the requests
    that follow. *)
Theorem invalid_content_type (h : Host) (l : nat) (req : Request) (hp : Heap)
  (w : World) (rest : list Request) :
  content_type req ≠ Some "application/json" →
  let answer := JSON.stringify_object [("error", invalid_header)] in
  let res := {| statusCode := 500; sent := [(500, answer)] |} in
  let w' := add_log "warn"
              (log_msg req +:+ " -> Invalid header Content-Type (Expected application/json)")
              w in
  handle_request h l req hp w = (hp, w', Normal res) ∧
  JSON.parse answer =
    Some (VObj [("error", VStr "Invalid header Content-Type (Expected application/json)")]) ∧
  env w' = env w ∧ loaded w' = loaded w ∧
  serve h l (req :: rest) hp w =
    (let '(rs, crash, hp2, w2) := serve h l rest hp w' in (res :: rs, crash, hp2, w2)).
Proof.
  intros Hct answer res w'.
  assert (Hreq : handle_request h l req hp w = (hp, w', Normal res)).
  { unfold handle_request. by destruct (decide _). }
  split; [done|]. split; [by vm_compute|]. split; [done|]. split; [done|].
  simpl serve. by rewrite Hreq.
Qed.

Lemma invalid_content_type_witness :
  ∃ w',
    handle_request Sample.host 0
      (Sample.post (Some "text/plain") Sample.body_no_event)
      ∅ Sample.world
    = (∅, w', Normal {| statusCode := 500;
                        sent := [(500, JSON.stringify_object [("error", invalid_header)])] |}).
Proof.
  eexists.
  apply (invalid_content_type Sample.host 0
           (Sample.post (Some "text/plain") Sample.body_no_event)
           ∅ Sample.world []).
  discriminate.
Defined.

(** C9, as the code has it: for a body that parses and whose [event]
    reads as a falsy value, the continuation is called twice, first with
    the error about the body and then with [null] and that falsy value
    itself, which is [undefined] only when the property is absent.  The
    listener answers the first call with status 500 and still runs an
    invocation for the second, with the falsy value as its event. *)
Theorem falsy_event_calls_twice (h : Host) (l : nat) (req : Request) (hp : Heap)
  (w : World) (payload ev : jsval) :
  JSON.parse (body req) = Some payload →
  get_prop payload "event" = Some ev →
  truthy ev = false →
  _getRequestPayload (body req) = Normal [(invalid_body, VUndefined); (VNull, ev)] ∧
  (content_type req = Some "application/json" →
   let res1 := (handle_error req invalid_body fresh_res w).1 in
   let w1 := (handle_error req invalid_body fresh_res w).2 in
   sent res1 = [(500, JSON.stringify_object [("error", invalid_body)])] ∧
   handle_request h l req hp w =
     (let '(hp2, w2, res2) := respond h l req (hp, w1, res1) ev in
      (hp2, w2, Normal res2)) ∧
   (∀ opts, resolve_event (with_event (EventProducer (Normal ev)) opts) = Normal ev)).
Proof.
  intros Hparse Hev Hfalsy.
  assert (Hcalls : _getRequestPayload (body req)
                   = Normal [(invalid_body, VUndefined); (VNull, ev)]).
  { unfold _getRequestPayload. by rewrite Hparse, Hev, Hfalsy. }
  split; [done|].
  intros Hct res1 w1. split; [done|]. split; [|done].
  unfold handle_request. rewrite Hcalls.
  destruct (decide _); [|done].
  simpl fold_left. unfold on_payload at 2. simpl.
  unfold on_payload. simpl.
  fold res1. fold w1.
  by destruct (respond h l req (hp, w1, res1) ev) as [[hp2 w2] res2].
Qed.

Lemma falsy_event_calls_twice_witness :
  _getRequestPayload Sample.body_no_event
    = Normal [(invalid_body, VUndefined); (VNull, VUndefined)].
Proof.
  apply (falsy_event_calls_twice Sample.host 0
           (Sample.post (Some "application/json") Sample.body_no_event)
           ∅ Sample.world (VObj []) VUndefined);
    reflexivity.
Defined.

(** The body [{"event":0}]: the second call of the continuation carries
    the number, not [undefined]. *)
Lemma falsy_event_is_passed_on :
  _getRequestPayload Sample.body_event_zero
    = Normal [(invalid_body, VUndefined); (VNull, VNum 0 0)] ∧
  (VNull, VNum 0 0) ≠ (VNull, VUndefined).
Proof. split; [vm_compute; reflexivity | discriminate]. Qed.

(** * Further properties *)

(** ** Values at the edge *)

(** A number too small for a double is zero, and falsy, so that the body
    [{"event":1e-400}] is treated as the body [{"event":0}] is; the
    least positive double is truthy. *)
Example underflow_is_falsy :
  truthy (VNum 1 (-400)) = false ∧
  truthy (VNum 5 (-324)) = true ∧
  _getRequestPayload
    ("{" +:+ String JSON.dquote "event" +:+ String JSON.dquote ":1e-400}")
  = Normal [(invalid_body, VUndefined); (VNull, VNum 1 (-400))].
Proof. repeat split; vm_compute; reflexivity. Qed.

(** A function that the module object inherits is called as one of its
    own is: with the name [toString] and an object that inherits the
    [toString] of plain objects, which returns a string, the invocation
    succeeds with a null payload. *)
Example inherited_function_is_called :
  let plain :=
    {| property := λ k, if decide (k = "toString")
                        then Some (Sample.returning (VStr "[object Object]"))
                        else None |} in
  ∃ w1 inv,
    _executeSync Sample.host
      (Sample.with_name "toString" (Sample.with_func plain Sample.no_options))
      Sample.world = (w1, Normal inv) ∧
    Context.delivered (context inv) = [(VNull, VNull)].
Proof. eexists _, _. split; reflexivity. Qed.

(** ** More on the staging of the environment *)

Section staging_more.

Implicit Types (vars penv : Env) (k : string).

(** X1: [updateEnv] only ever adds: a variable that is not among the
    defaults keeps its binding, absent or not; a variable that is
    defined stays defined; every default key is defined afterwards. *)
Theorem updateEnv_only_adds vars penv k :
  (vars !! k = None → updateEnv vars penv !! k = penv !! k) ∧
  (is_Some (penv !! k) → is_Some (updateEnv vars penv !! k)) ∧
  (is_Some (vars !! k) → is_Some (updateEnv vars penv !! k)).
Proof.
  rewrite updateEnv_lookup. repeat split.
  - intros ->. by destruct (truthy_str _).
  - intros [s Hs]. rewrite Hs. destruct (truthy_str _); [done|].
    by destruct (vars !! k).
  - intros [v ->]. destruct (truthy_str (penv !! k)) eqn:Hk; [|done].
    destruct (penv !! k); [done|discriminate].
Qed.

Lemma updateEnv_only_adds_witness :
  updateEnv (envVars Sample.host Sample.no_options) {[ "HOME" := "/home/dev" ]}
    !! "HOME" = Some "/home/dev".
Proof.
  refine (eq_trans
            (proj1 (updateEnv_only_adds (envVars Sample.host Sample.no_options)
                      {[ "HOME" := "/home/dev" ]} "HOME") _) _);
    reflexivity.
Defined.

(** X2: staging the same defaults a second time changes nothing. *)
Theorem updateEnv_idempotent vars penv :
  updateEnv vars (updateEnv vars penv) = updateEnv vars penv.
Proof.
  apply map_eq. intros k. rewrite !updateEnv_lookup.
  destruct (truthy_str (penv !! k)) eqn:Hk.
  - by rewrite Hk.
  - destruct (vars !! k) as [v|] eqn:Hv.
    + by destruct (truthy_str (Some v)).
    + by rewrite Hk.
Qed.

Lemma stage_region_other reg penv k :
  ¬ region_var k → stage_region reg penv !! k = penv !! k.
Proof.
  intros Hk. unfold stage_region, stage_region_var.
  rewrite !lookup_insert_ne; [done| |]; intros <-; apply Hk; [by left|by right].
Qed.

(** What the steps after the defaults do to a variable that is defined
    and that the custom variables do not name. *)
Lemma after_defaults_keeps h o (e1 : Env) profile k v :
  e1 !! k = Some v →
  (∀ vars, environment o = Some vars → vars !! k = None) →
  load_profiles h o profile
    (match envfile o with
     | Some f => dotenv_config h f
                   (match environment o with Some vars => set_all vars e1 | None => e1 end)
     | None => match environment o with Some vars => set_all vars e1 | None => e1 end
     end) !! k = Some v.
Proof.
  intros H1 Hcustom. apply load_profiles_keeps.
  assert (H2 : match environment o with
               | Some vars => set_all vars e1
               | None => e1
               end !! k = Some v).
  { destruct (environment o) as [vars|] eqn:Hvars; [|done].
    by rewrite set_all_lookup, (Hcustom vars eq_refl). }
  destruct (envfile o) as [f|]; [|done].
  by rewrite dotenv_config_lookup, H2.
Qed.

Lemma append_dot_nonempty (a b : string) : a +:+ "." +:+ b ≠ "".
Proof. by destruct a. Qed.

Lemma handler_identifier_nonempty h o :
  ∃ s, envVars h o !! "_HANDLER" = Some s ∧ s ≠ "".
Proof.
  rewrite envVars_handler. eexists. split; [done|]. apply append_dot_nonempty.
Qed.

Lemma not_region_HANDLER : ¬ region_var "_HANDLER".
Proof. by intros [H|H]. Qed.

(** X3: the handler identifier of the first invocation of a process
    stays: when [_HANDLER] is not set before, the staging of a first
    invocation sets it, and the staging of a later invocation with other
    options leaves it at the value of the first (no custom environment
    naming it). *)
Theorem handler_identifier_sticks (h : Host) (o1 o2 : Options) (penv : Env) :
  truthy_str (penv !! "_HANDLER") = false →
  (∀ vars, environment o1 = Some vars → vars !! "_HANDLER" = None) →
  (∀ vars, environment o2 = Some vars → vars !! "_HANDLER" = None) →
  stage_environment h o1 penv !! "_HANDLER" = envVars h o1 !! "_HANDLER" ∧
  stage_environment h o2 (stage_environment h o1 penv) !! "_HANDLER"
    = envVars h o1 !! "_HANDLER".
Proof.
  intros Hunset Hc1 Hc2.
  destruct (handler_identifier_nonempty h o1) as (s & Hs & Hne).
  assert (H1 : stage_environment h o1 penv !! "_HANDLER" = Some s).
  { unfold stage_environment.
    rewrite (stage_region_other _ _ _ not_region_HANDLER).
    unfold env_before_region. apply after_defaults_keeps; [|done].
    by rewrite updateEnv_lookup, Hunset, Hs. }
  split; [by rewrite H1, Hs|].
  rewrite Hs. unfold stage_environment at 1.
  rewrite (stage_region_other _ _ _ not_region_HANDLER).
  unfold env_before_region. apply after_defaults_keeps; [|done].
  by apply updateEnv_keeps.
Qed.

Lemma handler_identifier_sticks_witness :
  stage_environment Sample.host (Sample.with_path "/a/b/other.js" "run" Sample.no_options)
    (stage_environment Sample.host
       (Sample.with_path "/a/b/foo.js" "bar" Sample.no_options) ∅) !! "_HANDLER"
  = Some "foo.bar".
Proof.
  refine (eq_trans
            (proj2 (handler_identifier_sticks Sample.host
                      (Sample.with_path "/a/b/foo.js" "bar" Sample.no_options)
                      (Sample.with_path "/a/b/other.js" "run" Sample.no_options)
                      ∅ _ _ _)) _).
  - reflexivity.
  - discriminate.
  - discriminate.
  - vm_compute. reflexivity.
Defined.

(** X4: the custom variables of the options always win: after the
    staging a custom variable holds its custom value, over a default and
    over a value the process had; this holds for a region variable too,
    when the options give no region and the custom value is not
    empty. *)
Theorem custom_environment_overrides (h : Host) (o : Options) (penv vars : Env)
  (k v : string) :
  environment o = Some vars →
  vars !! k = Some v →
  (¬ region_var k → stage_environment h o penv !! k = Some v) ∧
  (region_var k → truthy_str (region o) = false → v ≠ "" →
     stage_environment h o penv !! k = Some v).
Proof.
  intros Hvars Hv.
  assert (Hbefore : env_before_region h o penv !! k = Some v).
  { unfold env_before_region. rewrite Hvars. apply load_profiles_keeps.
    assert (H2 : set_all vars (updateEnv (envVars h o) penv) !! k = Some v)
      by by rewrite set_all_lookup, Hv.
    destruct (envfile o) as [f|]; [|done].
    by rewrite dotenv_config_lookup, H2. }
  unfold stage_environment. split.
  - intros Hk. by rewrite stage_region_other.
  - intros Hk Hreg Hne. rewrite (stage_region_lookup _ _ _ Hk), Hbefore.
    unfold or_str. by rewrite Hreg, (proj2 (truthy_str_Some v) Hne).
Qed.

Lemma custom_environment_overrides_witness :
  stage_environment Sample.host
    (Sample.with_environment {[ "TZ" := "Europe/Paris" ]} None Sample.no_options)
    {[ "TZ" := "UTC" ]} !! "TZ" = Some "Europe/Paris".
Proof.
  refine (proj1 (custom_environment_overrides Sample.host
                   (Sample.with_environment {[ "TZ" := "Europe/Paris" ]} None
                      Sample.no_options)
                   {[ "TZ" := "UTC" ]} {[ "TZ" := "Europe/Paris" ]} "TZ" "Europe/Paris"
                   _ _) _).
  - reflexivity.
  - reflexivity.
  - intros [H|H]; discriminate.
Defined.

(** X5: the finalisation hook given to the context deletes every custom
    variable when [envdestroy] is set, and only those; it does not bring
    back the value a variable had before the invocation.  Without
    [envdestroy], or without custom variables, it changes nothing. *)
Theorem teardown_deletes_custom (h : Host) (o : Options) (w : World) (vars : Env)
  (k : string) :
  environment o = Some vars →
  (envdestroy o = Some true →
     (is_Some (vars !! k) → env (finalCallback o (staged_world h o w)) !! k = None) ∧
     (vars !! k = None →
        env (finalCallback o (staged_world h o w)) !! k = env (staged_world h o w) !! k) ∧
     loaded (finalCallback o w) = loaded w ∧ logged (finalCallback o w) = logged w) ∧
  (envdestroy o ≠ Some true → finalCallback o w = w).
Proof.
  intros Hvars. unfold finalCallback. rewrite Hvars. split.
  - intros ->. simpl. rewrite !delete_all_lookup. repeat split.
    + by intros [v ->].
    + by intros ->.
  - intros Hno. destruct (envdestroy o) as [[]|]; simpl; congruence.
Qed.

Lemma teardown_deletes_custom_witness :
  env (finalCallback
         (Sample.with_environment {[ "TZ" := "Europe/Paris" ]} (Some true) Sample.no_options)
         (staged_world Sample.host
            (Sample.with_environment {[ "TZ" := "Europe/Paris" ]} (Some true)
               Sample.no_options)
            {| env := {[ "TZ" := "UTC" ]}; loaded := []; logged := [] |})) !! "TZ" = None.
Proof.
  refine (proj1 (proj1 (teardown_deletes_custom Sample.host
                          (Sample.with_environment {[ "TZ" := "Europe/Paris" ]} (Some true)
                             Sample.no_options)
                          {| env := {[ "TZ" := "UTC" ]}; loaded := []; logged := [] |}
                          {[ "TZ" := "Europe/Paris" ]} "TZ" _) _) _).
  - reflexivity.
  - reflexivity.
  - by eexists.
Defined.

(** X6: after the staging both region variables hold a non-empty value,
    whatever the options and the process environment; the two are
    resolved one by one, so that with no region in the options a value
    of [AWS_REGION] does not carry over to an unset
    [AWS_DEFAULT_REGION], which gets [us-east-1]. *)
Theorem region_variables_always_set (h : Host) (o : Options) (penv : Env) :
  (∀ k, region_var k →
     ∃ v, stage_environment h o penv !! k = Some v ∧ v ≠ "") ∧
  (∀ v, truthy_str (region o) = false →
     env_before_region h o penv !! "AWS_REGION" = Some v → v ≠ "" →
     truthy_str (env_before_region h o penv !! "AWS_DEFAULT_REGION") = false →
     stage_environment h o penv !! "AWS_REGION" = Some v ∧
     stage_environment h o penv !! "AWS_DEFAULT_REGION" = Some "us-east-1").
Proof.
  split.
  - intros k Hk. unfold stage_environment. rewrite (stage_region_lookup _ _ _ Hk).
    eexists. split; [done|].
    unfold or_str.
    destruct (region o) as [r|] eqn:Hr; simpl.
    + destruct (String.eqb_spec r ""); simpl.
      * destruct (env_before_region h o penv !! k) as [s|]; simpl; [|done].
        by destruct (String.eqb_spec s "").
      * done.
    + destruct (env_before_region h o penv !! k) as [s|]; simpl; [|done].
      by destruct (String.eqb_spec s "").
  - intros v Hreg Hv Hne Hdefault. unfold stage_environment.
    rewrite !stage_region_lookup by (by left + by right).
    unfold or_str. rewrite Hreg, Hv, Hdefault.
    by rewrite (proj2 (truthy_str_Some v) Hne).
Qed.

Lemma region_variables_always_set_witness :
  stage_environment Sample.host Sample.no_options {[ "AWS_REGION" := "eu-west-1" ]}
    !! "AWS_DEFAULT_REGION" = Some "us-east-1".
Proof.
  refine (proj2 (proj2 (region_variables_always_set Sample.host Sample.no_options
                          {[ "AWS_REGION" := "eu-west-1" ]}) "eu-west-1" _ _ _ _)).
  - reflexivity.
  - vm_compute. reflexivity.
  - discriminate.
  - vm_compute. reflexivity.
Defined.

End staging_more.

(** ** More on the validation and on errors before the handler runs *)

(** X7: the client context makes [_executeSync] throw exactly when it is
    a non-empty string that is no JSON text; an absent, [null], zero,
    [false] or empty-string client context counts as none, and any other
    value is handed on as it is. *)
Theorem client_context_throws_iff (o : Options) :
  ((∃ e, client_context o = Abrupt e) ↔
     ∃ s, clientContext o = Some (VStr s) ∧ s ≠ "" ∧ JSON.parse s = None) ∧
  (∀ v, clientContext o = Some v → truthy v = false → client_context o = Normal VNull) ∧
  (∀ v, clientContext o = Some v → truthy v = true → (∀ s, v ≠ VStr s) →
     client_context o = Normal v).
Proof.
  unfold client_context. repeat split.
  - intros [e He]. destruct (clientContext o) as [v|]; [|discriminate].
    destruct (truthy v) eqn:Hv; [|discriminate].
    destruct v; try discriminate.
    destruct (JSON.parse s) eqn:Hs; [discriminate|].
    exists s. repeat split; [|done]. intros ->. discriminate.
  - intros (s & -> & Hne & ->). simpl.
    destruct (String.eqb_spec s ""); [done|]. simpl. by eexists.
  - intros v -> ->. done.
  - intros v -> -> Hnot. destruct v; try done. by destruct (Hnot s).
Qed.

Lemma client_context_throws_iff_witness :
  client_context (Sample.with_client (VStr "") Sample.no_options) = Normal VNull.
Proof.
  exact (proj1 (proj2 (client_context_throws_iff
                         (Sample.with_client (VStr "") Sample.no_options)))
           (VStr "") eq_refl eq_refl).
Defined.

Lemma staged_world_loaded h o w : loaded (staged_world h o w) = loaded w.
Proof. unfold staged_world. by destruct (waits_unsupported h o). Qed.

Lemma finalCallback_loaded o w : loaded (finalCallback o w) = loaded w.
Proof.
  unfold finalCallback. destruct (environment o); [|done].
  by destruct (default false (envdestroy o)).
Qed.

Section before_the_handler.

Variables (h : Host) (o : Options) (w : World) (client : jsval).

Hypothesis Hclient : client_context o = Normal client.

Lemma fresh_context_pending :
  Context.completion_state (new_context h o client) = Context.Pending ∧
  Context.delivered (new_context h o client) = [] ∧
  Context.timer (new_context h o client) = false ∧
  Context.finalCallback (new_context h o client) = finalCallback o.
Proof. unfold new_context. by destruct (callback o). Qed.

(** X9: a handler file that cannot be loaded does not make
    [_executeSync] throw: the error goes to [fail] and is the outcome of
    the invocation; no module is recorded as loaded, no timer is armed
    and nothing is left for the event loop. *)
Theorem load_failure_is_delivered (p : string) :
  lambdaFunc o = None →
  resolved_path h o = Some p →
  modules h p = None →
  ∃ inv w1,
    _executeSync h o w = (w1, Normal inv) ∧
    w1 = finalCallback o (staged_world h o w) ∧
    loaded w1 = loaded w ∧
    Context.delivered (context inv)
      = [(VError LoadError ("Cannot find module '" +:+ p +:+ "'"), VNull)] ∧
    Context.timer (context inv) = false ∧
    agenda inv = [] ∧ wired inv = None.
Proof.
  intros Hfunc Hpath Hmod.
  destruct fresh_context_pending as (Hp & Hd & Ht & Hhook).
  unfold _executeSync, try_block, load_module.
  rewrite Hclient, Hfunc, Hpath, Hmod. simpl.
  unfold Context.fail, Context.complete. rewrite Hp, Hd, Hhook.
  eexists _, _. split; [done|]. repeat split.
  by rewrite finalCallback_loaded, staged_world_loaded.
Qed.

(** X10: a module in which the handler name reads no function, neither
    of its own nor inherited, is answered the same way: the call throws
    a TypeError, which goes through [fail], with the timer, armed just
    before the call, cancelled again. *)
Theorem missing_export_is_delivered (m : Module') (ev : jsval) :
  lambdaFunc o = Some m →
  truthy_str (lambdaPath o) = false →
  resolve_event o = Normal ev →
  m !! handler_name o = None →
  ∃ inv w1,
    _executeSync h o w = (w1, Normal inv) ∧
    Context.delivered (context inv)
      = [(VError TypeError "lambdaFunc[lambdaHandler] is not a function", VNull)] ∧
    Context.timer (context inv) = false ∧
    agenda inv = [].
Proof.
  intros Hfunc Hpath Hevent Hexport.
  destruct fresh_context_pending as (Hp & Hd & Ht & Hhook).
  unfold _executeSync, try_block.
  rewrite Hclient, Hfunc, Hpath, andb_false_r. cbv beta iota.
  rewrite Hevent. cbv beta iota zeta. rewrite Hexport.
  unfold Context.fail, Context.complete. simpl. rewrite Hp, Hd.
  eexists _, _. split; [done|]. done.
Qed.

(** X11: an event producer that throws is answered through [fail] as
    well; it runs before the timer is armed and instead of the handler,
    which is not called. *)
Theorem throwing_event_is_delivered (m : Module') (e : jsval) :
  lambdaFunc o = Some m →
  truthy_str (lambdaPath o) = false →
  resolve_event o = Abrupt e →
  ∃ inv w1,
    _executeSync h o w = (w1, Normal inv) ∧
    w1 = finalCallback o (staged_world h o w) ∧
    Context.delivered (context inv) = [(e, VNull)] ∧
    Context.timer (context inv) = false ∧
    agenda inv = [].
Proof.
  intros Hfunc Hpath Hevent.
  destruct fresh_context_pending as (Hp & Hd & Ht & Hhook).
  unfold _executeSync, try_block.
  rewrite Hclient, Hfunc, Hpath, andb_false_r. cbv beta iota.
  rewrite Hevent. cbv beta iota zeta.
  unfold Context.fail, Context.complete. rewrite Hp, Hd, Hhook.
  eexists _, _. split; [done|]. done.
Qed.

End before_the_handler.

Lemma load_failure_is_delivered_witness :
  ∃ inv w1,
    _executeSync Sample.host (Sample.with_path "/no/such.js" "bar" Sample.no_options)
      Sample.world = (w1, Normal inv) ∧
    loaded w1 = [] ∧ Context.timer (context inv) = false.
Proof.
  destruct (load_failure_is_delivered Sample.host
              (Sample.with_path "/no/such.js" "bar" Sample.no_options)
              Sample.world VNull eq_refl "/no/such.js" eq_refl eq_refl eq_refl)
    as (inv & w1 & Hrun & _ & Hloaded & _ & Htimer & _).
  by exists inv, w1.
Defined.

Lemma missing_export_is_delivered_witness :
  ∃ inv w1,
    _executeSync Sample.host
      (Sample.with_name "nope" (Sample.func_options Sample.echo)) Sample.world
      = (w1, Normal inv) ∧
    Context.timer (context inv) = false.
Proof.
  destruct (missing_export_is_delivered Sample.host
              (Sample.with_name "nope" (Sample.func_options Sample.echo))
              Sample.world VNull eq_refl {[ "handler" := Sample.echo ]} VUndefined
              eq_refl eq_refl eq_refl eq_refl)
    as (inv & w1 & Hrun & _ & Htimer & _).
  by exists inv, w1.
Defined.

Lemma throwing_event_is_delivered_witness :
  ∃ inv w1,
    _executeSync Sample.host
      (with_event (EventProducer (Abrupt (VStr "no event")))
         (Sample.func_options Sample.echo)) Sample.world
      = (w1, Normal inv) ∧
    Context.delivered (context inv) = [(VStr "no event", VNull)].
Proof.
  destruct (throwing_event_is_delivered Sample.host
              (with_event (EventProducer (Abrupt (VStr "no event")))
                 (Sample.func_options Sample.echo))
              Sample.world VNull eq_refl {[ "handler" := Sample.echo ]}
              (VStr "no event") eq_refl eq_refl eq_refl)
    as (inv & w1 & Hrun & _ & Hd & _).
  by exists inv, w1.
Defined.

(** ** More on the direct API *)

Lemma future_settled_stays (calls : list (jsval * jsval)) (p : promise_state) :
  p ≠ PPending → fold_left future_callback calls p = p.
Proof.
  revert p. induction calls as [|c calls IH]; intros p Hp; [done|].
  simpl. assert (Hc : future_callback p c = p).
  { unfold future_callback. destruct p; [done| |]; by destruct (truthy c.1). }
  rewrite Hc. by apply IH.
Qed.

(** X12: the future [execute] returns is settled by the first call of
    the installed callback alone: rejected with the error when that is
    truthy, fulfilled with the second argument otherwise, also for an
    error such as [0] or the empty string; no later call changes it. *)
Theorem future_settled_by_first_call (c : jsval * jsval)
  (rest : list (jsval * jsval)) :
  future_of (c :: rest) = (if truthy c.1 then PRejected c.1 else PFulfilled c.2) ∧
  future_of [] = PPending.
Proof.
  split; [|done]. unfold future_of. simpl.
  rewrite future_settled_stays.
  - unfold future_callback. by destruct (truthy c.1).
  - unfold future_callback. by destruct (truthy c.1).
Qed.

(** X13: [execute] never changes an options object that exists, in
    either style and whatever the outcome; the heap is left as it is in
    callback style and gains the one copy in future style. *)
Theorem execute_keeps_objects (h : Host) (l : nat) (hp : Heap) (w : World) :
  (∀ l0 o0, hp !! l0 = Some o0 → (execute h l hp w).1.1 !! l0 = Some o0) ∧
  (∀ o, hp !! l = Some o → is_Some (callback o) → (execute h l hp w).1.1 = hp) ∧
  (hp !! l = None → execute h l hp w = (hp, w, ExecThrew undefined_opts_error)).
Proof.
  repeat split.
  - intros l0 o0 H0. destruct (hp !! l) as [o|] eqn:Hl.
    + destruct (callback o) as [cb|] eqn:Hcb.
      * by rewrite (execute_callback _ _ _ _ _ _ Hl Hcb).
      * rewrite (execute_future _ _ _ _ _ Hl Hcb). simpl.
        rewrite lookup_insert_ne; [done|]. intros <-.
        apply (is_fresh (dom hp)). apply elem_of_dom. by rewrite H0.
    + unfold execute. by rewrite Hl.
  - intros o Hl [cb Hcb]. by rewrite (execute_callback _ _ _ _ _ _ Hl Hcb).
  - intros Hl. unfold execute. by rewrite Hl.
Qed.

Lemma execute_keeps_objects_witness :
  (execute Sample.host 0
     {[ 0%nat := with_callback UserCallback (Sample.func_options Sample.echo) ]}
     Sample.world).1.1
  = {[ 0%nat := with_callback UserCallback (Sample.func_options Sample.echo) ]}.
Proof.
  assert (Hl : ({[ 0%nat := with_callback UserCallback (Sample.func_options Sample.echo) ]}
                  : Heap) !! 0%nat
               = Some (with_callback UserCallback (Sample.func_options Sample.echo)))
    by (vm_compute; reflexivity).
  exact (proj1 (proj2 (execute_keeps_objects Sample.host 0 _ Sample.world))
           _ Hl (ex_intro _ UserCallback eq_refl)).
Defined.

(** ** The logger *)

Lemma default_last_cons {A} (a v : A) (l : list A) :
  default a (last (v :: l)) = default v (last l).
Proof.
  revert a v. induction l as [|x l IH]; intros a v; [done|].
  change (last (v :: x :: l)) with (last (x :: l)).
  by rewrite (IH a x), (IH v x).
Qed.

(** X14: after any sequence of [setLogger] calls the logger in use is
    the last value of the sequence that has a [transports] property, and
    the one there was before when none has; each of the other calls
    changes nothing but adds one warning. *)
Theorem setLogger_last_valid (ls : list jsval) (lg : jsval) (w : World) :
  let st := fold_left (fun st v => setLogger v st) ls (lg, w) in
  getLogger st = default lg (last (List.filter is_logger ls)) ∧
  env st.2 = env w ∧
  length (logged st.2)
    = (length (logged w) + length (List.filter (fun v => negb (is_logger v)) ls))%nat.
Proof.
  revert lg w. induction ls as [|v ls IH]; intros lg w; simpl.
  - repeat split. lia.
  - change (setLogger v (lg, w))
      with (if is_logger v then (v, w)
            else (lg, add_log "warn" "Invalid logger object ! Using default logger" w)).
    destruct (is_logger v) eqn:Hv; simpl.
    + destruct (IH v w) as (Hl & He & Hn). by rewrite default_last_cons.
    + destruct (IH lg (add_log "warn" "Invalid logger object ! Using default logger" w))
        as (Hl & He & Hn).
      split; [done|]. split; [done|].
      rewrite Hn. simpl. rewrite length_app. simpl. lia.
Qed.

(** ** More on the HTTP front end *)

(** An invocation that has started has delivered exactly one outcome
    when the event loop is idle. *)
Lemma drain_delivers_once h o w w1 inv :
  _executeSync h o w = (w1, Normal inv) →
  ∃ err value, Context.delivered (context (drain inv w1).1) = [(err, value)].
Proof.
  intros Hstart. destruct (_executeSync_started _ _ _ _ _ Hstart) as [Ho Hl].
  assert (Hof : once (context (drain inv w1).1)) by by apply run_events_once.
  assert (Hdone : Context.completion_state (context (drain inv w1).1) ≠ Context.Pending).
  { unfold drain, schedule. rewrite run_events_app.
    unfold run_events at 1. simpl fold_left.
    set (st := run_events (agenda inv) (scheduled inv) w1).
    assert (Hlst : live (context st.1)) by by apply run_events_live.
    pose proof (expire_live (context st.1) st.2 Hlst).
    unfold async_step. by destruct (Context.expire (context st.1) st.2). }
  unfold once in Hof.
  destruct (Context.completion_state (context (drain inv w1).1)) as [|err value];
    [done|]. exists err, value. by destruct Hof.
Qed.

Lemma future_of_single err value : future_of [(err, value)] ≠ PPending.
Proof. unfold future_of, future_callback. simpl. by destruct (truthy err). Qed.

(** What [execute] has started is never left pending. *)
Lemma execute_outcome_settled h l (hp : Heap) w :
  (observe (execute h l hp w).2 (execute h l hp w).1.2).2 ≠ Settled PPending.
Proof.
  destruct (hp !! l) as [o|] eqn:Hl.
  - destruct (callback o) as [cb|] eqn:Hcb.
    + rewrite (execute_callback _ _ _ _ _ _ Hl Hcb). simpl.
      destruct (_executeSync h o w) as [w1 [inv|e]]; simpl; [|done].
      by destruct (drain inv w1).
    + rewrite (execute_future _ _ _ _ _ Hl Hcb). simpl.
      destruct (_executeSync h (with_callback FutureCallback o) w)
        as [w1 [inv|e]] eqn:Hrun; simpl; [|done].
      destruct (drain_delivers_once _ _ _ _ _ Hrun) as (err & value & Hd).
      destruct (drain inv w1) as [inv' w']. simpl in *. rewrite Hd.
      intros [= H]. by apply (future_of_single err value).
  - unfold execute. by rewrite Hl.
Qed.

(** One invocation for a request ends the response once: under status
    500 with the error, or with the data under the status there is. *)
Lemma respond_ends_once h l req (hp : Heap) w res result :
  ∃ st text v,
    (respond h l req (hp, w, res) result).2
      = {| statusCode := st; sent := sent res ++ [(st, text)] |} ∧
    ((st = statusCode res ∧ text = JSON.stringify_object [("data", v)]) ∨
     (st = 500 ∧ text = JSON.stringify_object [("error", v)])).
Proof.
  unfold respond. destruct (hp !! l) as [opts|].
  - set (hp1 := <[fresh (dom hp) := _]> hp).
    pose proof (execute_outcome_settled h (fresh (dom hp)) hp1 w) as Hsettled.
    destruct (execute h (fresh (dom hp)) hp1 w) as [[hp2 w1] r]. simpl in Hsettled.
    destruct (observe r w1) as [w2 [e|calls|[|data|e]]]; simpl in *.
    + eexists _, _, e. split; [done|]. by right.
    + eexists _, _, VUndefined. split; [done|]. by left.
    + done.
    + eexists _, _, data. split; [done|]. by left.
    + eexists _, _, e. split; [done|]. by right.
  - simpl. eexists _, _, undefined_opts_error. split; [done|]. by right.
Qed.

(** X15: a request with the JSON content type whose body parses and has
    a truthy [event] is answered exactly once: with status 200 and
    [{ data }], or with status 500 and [{ error }]. *)
Theorem truthy_event_answered_once (h : Host) (l : nat) (req : Request) (hp : Heap)
  (w : World) (payload ev : jsval) :
  content_type req = Some "application/json" →
  JSON.parse (body req) = Some payload →
  get_prop payload "event" = Some ev →
  truthy ev = true →
  ∃ hp' w' st text,
    handle_request h l req hp w
      = (hp', w', Normal {| statusCode := st; sent := [(st, text)] |}) ∧
    answer_of st text.
Proof.
  intros Hct Hparse Hev Htruthy.
  assert (Hcalls : _getRequestPayload (body req) = Normal [(VNull, ev)]).
  { unfold _getRequestPayload. by rewrite Hparse, Hev, Htruthy. }
  unfold handle_request. rewrite Hcalls. destruct (decide _); [|done].
  change (fold_left (on_payload h l req) [(VNull, ev)] (hp, w, fresh_res))
    with (respond h l req (hp, w, fresh_res) ev).
  destruct (respond_ends_once h l req hp w fresh_res ev) as (st & text & v & Hres & Hst).
  destruct (respond h l req (hp, w, fresh_res) ev) as [[hp' w'] res]. simpl in Hres.
  subst res. exists hp', w', st, text. split; [done|].
  exists v. destruct Hst as [[-> ->]|[-> ->]]; [by left|by right].
Qed.

Lemma truthy_event_answered_once_witness :
  ∃ hp' w' st text,
    handle_request Sample.host 0
      (Sample.post (Some "application/json") Sample.body_event_x1)
      {[ 0%nat := Sample.func_options Sample.echo ]} Sample.world
    = (hp', w', Normal {| statusCode := st; sent := [(st, text)] |}).
Proof.
  destruct (truthy_event_answered_once Sample.host 0
              (Sample.post (Some "application/json") Sample.body_event_x1)
              {[ 0%nat := Sample.func_options Sample.echo ]} Sample.world
              (VObj [("event", VObj [("x", VNum 1 0)])]) (VObj [("x", VNum 1 0)])
              eq_refl eq_refl eq_refl eq_refl)
    as (hp' & w' & st & text & H & _).
  by exists hp', w', st, text.
Defined.

(** X16: a request whose [event] reads as a falsy value ends its
    response twice, and both times under status 500: the status set for
    the error about the body is still there when the invocation that
    follows writes its own answer, even a successful one. *)
Theorem falsy_event_answered_twice (h : Host) (l : nat) (req : Request) (hp : Heap)
  (w : World) (payload ev : jsval) :
  content_type req = Some "application/json" →
  JSON.parse (body req) = Some payload →
  get_prop payload "event" = Some ev →
  truthy ev = false →
  ∃ hp' w' text v,
    handle_request h l req hp w
      = (hp', w',
         Normal {| statusCode := 500;
                   sent := [(500, JSON.stringify_object [("error", invalid_body)]);
                            (500, text)] |}) ∧
    (text = JSON.stringify_object [("data", v)] ∨
     text = JSON.stringify_object [("error", v)]).
Proof.
  intros Hct Hparse Hev Hfalsy.
  assert (Hcalls : _getRequestPayload (body req)
                   = Normal [(invalid_body, VUndefined); (VNull, ev)]).
  { unfold _getRequestPayload. by rewrite Hparse, Hev, Hfalsy. }
  unfold handle_request. rewrite Hcalls. destruct (decide _); [|done].
  set (res1 := (handle_error req invalid_body fresh_res w).1).
  set (w1 := (handle_error req invalid_body fresh_res w).2).
  change (fold_left (on_payload h l req) [(invalid_body, VUndefined); (VNull, ev)]
            (hp, w, fresh_res))
    with (respond h l req (hp, w1, res1) ev).
  destruct (respond_ends_once h l req hp w1 res1 ev) as (st & text & v & Hres & Hst).
  destruct (respond h l req (hp, w1, res1) ev) as [[hp' w'] res]. simpl in Hres.
  subst res. exists hp', w', text, v.
  destruct Hst as [[-> ->]|[-> ->]]; (split; [done|]); [by left|by right].
Qed.

Lemma falsy_event_answered_twice_witness :
  ∃ hp' w',
    handle_request Sample.host 0
      (Sample.post (Some "application/json") Sample.body_event_zero)
      {[ 0%nat := Sample.func_options Sample.echo ]} Sample.world
    = (hp', w',
       Normal {| statusCode := 500;
                 sent := [(500, JSON.stringify_object [("error", invalid_body)]);
                          (500, JSON.stringify_object [("data", VNum 0 0)])] |}).
Proof.
  destruct (falsy_event_answered_twice Sample.host 0
              (Sample.post (Some "application/json") Sample.body_event_zero)
              {[ 0%nat := Sample.func_options Sample.echo ]} Sample.world
              (VObj [("event", VNum 0 0)]) (VNum 0 0)
              eq_refl eq_refl eq_refl eq_refl)
    as (hp' & w' & text & v & H & _).
  exists hp', w'. rewrite H. vm_compute in H. injection H as _ _ <-. reflexivity.
Defined.

(** The parser never gives [undefined]: an array text gives an array, an
    object text an object. *)
Lemma parse_elements_array fuel acc s v r :
  JSON.parse_elements fuel acc s = Some (v, r) → ∃ items, v = VArr items.
Proof.
  revert acc s. induction fuel as [|fuel IH]; intros acc s; [done|].
  simpl. destruct (JSON.parse_value fuel s) as [[v0 r0]|]; [|done]. simpl.
  destruct (JSON.skip_ws r0) as [|c r1]; [done|].
  destruct (decide (c = ","%char)) as [->|Hc1].
  { apply IH. }
  destruct (decide (c = "]"%char)) as [->|Hc2].
  { intros [= <- <-]. by eexists. }
  destruct c as [[] [] [] [] [] [] [] []]; try done.
Qed.

Lemma parse_members_object fuel acc s v r :
  JSON.parse_members fuel acc s = Some (v, r) → ∃ fields, v = VObj fields.
Proof.
  revert acc s. induction fuel as [|fuel IH]; intros acc s; [done|].
  cbn -[JSON.parse_chars JSON.skip_ws].
  destruct (JSON.skip_ws s) as [|c rest]; [done|].
  destruct (Ascii.eqb c JSON.dquote); [|done].
  destruct (JSON.parse_chars (S (length rest)) [] rest) as [[key r0]|]; [|done].
  cbn -[JSON.parse_chars JSON.skip_ws].
  destruct (JSON.skip_ws r0) as [|c1 r1]; [done|].
  destruct (decide (c1 = ":"%char)) as [->|Hc];
    [|destruct c1 as [[] [] [] [] [] [] [] []]; done].
  destruct (JSON.parse_value fuel r1) as [[v0 r2]|]; [|done]. simpl.
  destruct (JSON.skip_ws r2) as [|c2 r3]; [done|].
  destruct (decide (c2 = ","%char)) as [->|Hc1].
  { apply IH. }
  destruct (decide (c2 = "}"%char)) as [->|Hc2].
  { intros [= <- <-]. by eexists. }
  destruct c2 as [[] [] [] [] [] [] [] []]; try done.
Qed.

Lemma parse_value_defined fuel s v r :
  JSON.parse_value fuel s = Some (v, r) → v ≠ VUndefined.
Proof.
  destruct fuel as [|fuel]; [done|].
  cbn -[JSON.parse_chars JSON.skip_ws JSON.parse_number JSON.starts_with].
  destruct (JSON.skip_ws s) as [|c rest]; [done|].
  destruct (Ascii.eqb c JSON.dquote).
  { destruct (JSON.parse_chars (S (length rest)) [] rest) as [[str r0]|]; [|done].
    by intros [= <- <-]. }
  destruct (Ascii.eqb c "[").
  { intros H.
    assert (Harr : ∃ items, v = VArr items).
    { destruct (JSON.skip_ws rest) as [|c1 r1] eqn:Hws.
      - by apply parse_elements_array in H.
      - destruct (decide (c1 = "]"%char)) as [->|Hc].
        + injection H as <- <-. by eexists.
        + assert (H' : JSON.parse_elements fuel [] (c1 :: r1) = Some (v, r))
            by (destruct c1 as [[] [] [] [] [] [] [] []]; done).
          by apply parse_elements_array in H'. }
    destruct Harr as [items ->]. done. }
  destruct (Ascii.eqb c "{").
  { intros H.
    assert (Hobj : ∃ fields, v = VObj fields).
    { destruct (JSON.skip_ws rest) as [|c1 r1] eqn:Hws.
      - by apply parse_members_object in H.
      - destruct (decide (c1 = "}"%char)) as [->|Hc].
        + injection H as <- <-. by eexists.
        + assert (H' : JSON.parse_members fuel [] (c1 :: r1) = Some (v, r))
            by (destruct c1 as [[] [] [] [] [] [] [] []]; done).
          by apply parse_members_object in H'. }
    destruct Hobj as [fields ->]. done. }
  destruct (Ascii.eqb c "n").
  { destruct (JSON.starts_with _ _); [|done]. by intros [= <- <-]. }
  destruct (Ascii.eqb c "t").
  { destruct (JSON.starts_with _ _); [|done]. by intros [= <- <-]. }
  destruct (Ascii.eqb c "f").
  { destruct (JSON.starts_with _ _); [|done]. by intros [= <- <-]. }
  unfold JSON.parse_number.
  destruct (match c :: rest with
            | "-"%char :: r0 => (true, r0)
            | _ => (false, c :: rest)
            end) as [neg s1].
  destruct (JSON.parse_int s1) as [[i s2]|]; [|done]. simpl.
  destruct (JSON.parse_frac i s2) as [[[m0 e1] s3]|]; [|done]. simpl.
  destruct (JSON.parse_exp s3) as [[e2 s4]|]; [|done]. simpl.
  by intros [= <- <-].
Qed.

Lemma parse_defined text v : JSON.parse text = Some v → v ≠ VUndefined.
Proof.
  unfold JSON.parse.
  destruct (JSON.parse_value _ _) as [[v0 r]|] eqn:Hv; [|done]. simpl.
  destruct (JSON.skip_ws r); [|done]. intros [= <-].
  by eapply parse_value_defined.
Qed.

(** X17: the listener throws outside every [try], which ends the
    process, exactly for a request with the JSON content type whose body
    is no JSON text or is the JSON text [null]; it has then answered
    nothing and changed nothing.  Every other request gets a
    response. *)
Theorem listener_throws_iff (h : Host) (l : nat) (req : Request) (hp : Heap)
  (w : World) :
  ((∃ e, (handle_request h l req hp w).2 = Abrupt e) ↔
     content_type req = Some "application/json" ∧
     (JSON.parse (body req) = None ∨ JSON.parse (body req) = Some VNull)) ∧
  (∀ e, (handle_request h l req hp w).2 = Abrupt e →
     handle_request h l req hp w = (hp, w, Abrupt e)).
Proof.
  unfold handle_request, _getRequestPayload.
  destruct (decide (content_type req = Some "application/json")) as [Hct|Hct].
  - destruct (JSON.parse (body req)) as [payload|] eqn:Hparse.
    + destruct (get_prop payload "event") as [ev|] eqn:Hev.
      * destruct (fold_left _ _ _) as [[hp' w'] res]. simpl. split.
        -- split; [by intros [e He]|].
           intros [_ [?|Hnull]]; [done|]. injection Hnull as ->. done.
        -- done.
      * simpl. split; [|by intros e [= <-]].
        split; [intros _|by eexists]. split; [done|]. right.
        destruct payload; try done.
        by destruct (parse_defined _ _ Hparse).
    + simpl. split; [|by intros e [= <-]].
      split; [intros _; split; [done|by left]|by eexists].
  - simpl. split; [|done]. split; [by intros [e He]|by intros [? _]].
Qed.

Lemma serve_cons h l req rest (hp : Heap) w :
  serve h l (req :: rest) hp w =
    match handle_request h l req hp w with
    | (hp', w', Normal res) =>
        let '(rs, crash, hp'', w'') := serve h l rest hp' w' in
        (res :: rs, crash, hp'', w'')
    | (hp', w', Abrupt e) => ([], Some e, hp', w')
    end.
Proof. done. Qed.

Lemma listener_throws_iff_witness :
  ∃ e,
    (handle_request Sample.host 0 (Sample.post (Some "application/json") "null")
       {[ 0%nat := Sample.func_options Sample.echo ]} Sample.world).2 = Abrupt e.
Proof.
  apply (proj2 (proj1 (listener_throws_iff Sample.host 0
                         (Sample.post (Some "application/json") "null")
                         {[ 0%nat := Sample.func_options Sample.echo ]} Sample.world))).
  split; [reflexivity|]. right. vm_compute. reflexivity.
Defined.

Lemma with_verboseLevel_same (o : Options) (v : Z) :
  verboseLevel o = Some v → with_verboseLevel v o = o.
Proof. destruct o. simpl. by intros ->. Qed.

Lemma new_context_verboseLevel h o client :
  Context.verboseLevel (new_context h o client) = default 3 (verboseLevel o).
Proof. unfold new_context. by destruct (callback o). Qed.

(** X19: [watch] writes its default for the verbosity into the caller's
    own options: afterwards the object holds the verbosity it had, or 0
    when it had none, every other field and every other object being as
    before; so an invocation made for a request gets verbosity 0 where
    one made by [execute] alone on the same options gets 3. *)
Theorem watch_sets_verbosity (h : Host) (l : nat) (hp : Heap) (w : World)
  (o : Options) (client : jsval) :
  hp !! l = Some o →
  let o' := with_verboseLevel (default 0 (verboseLevel o)) o in
  (watch l hp w).1 = <[l := o']> hp ∧
  env (watch l hp w).2 = env w ∧
  (verboseLevel o = None →
     Context.verboseLevel (new_context h o client) = 3 ∧
     Context.verboseLevel (new_context h o' client) = 0) ∧
  (∀ v, verboseLevel o = Some v → o' = o).
Proof.
  intros Hl o'. unfold watch. cbn [fst snd].
  assert (Halter : ∀ f : Options → Options, f o = o' → alter f l hp = <[l := o']> hp).
  { intros f Hf. apply map_eq. intros l0. destruct (decide (l = l0)) as [<-|Hne].
    - by rewrite lookup_alter_eq, lookup_insert_eq, Hl; simpl; rewrite Hf.
    - by rewrite lookup_alter_ne, lookup_insert_ne. }
  split; [|split; [done|split]].
  - apply Halter. subst o'. destruct (verboseLevel o) as [v|] eqn:Hv; [|done].
    simpl. destruct (Z.eqb_spec v 0) as [->|Hne]; [done|].
    symmetry. by apply with_verboseLevel_same.
  - intros Hnone. rewrite !new_context_verboseLevel. subst o'. by rewrite Hnone.
  - intros v Hv. subst o'. rewrite Hv. by apply with_verboseLevel_same.
Qed.

Lemma watch_sets_verbosity_witness :
  (watch 0 {[ 0%nat := Sample.func_options Sample.echo ]} Sample.world).1
  = <[0%nat := with_verboseLevel 0 (Sample.func_options Sample.echo)]>
      {[ 0%nat := Sample.func_options Sample.echo ]}.
Proof.
  assert (Hl : ({[ 0%nat := Sample.func_options Sample.echo ]} : Heap) !! 0%nat
               = Some (Sample.func_options Sample.echo))
    by (vm_compute; reflexivity).
  exact (proj1 (watch_sets_verbosity Sample.host 0 _ Sample.world _ VNull Hl)).
Defined.

Lemma execute_frame h l (hp : Heap) w l0 o0 :
  hp !! l0 = Some o0 → (execute h l hp w).1.1 !! l0 = Some o0.
Proof.
  intros H0. destruct (hp !! l) as [o|] eqn:Hl.
  - destruct (callback o) as [cb|] eqn:Hcb.
    + by rewrite (execute_callback _ _ _ _ _ _ Hl Hcb).
    + rewrite (execute_future _ _ _ _ _ Hl Hcb). simpl.
      rewrite lookup_insert_ne; [done|]. intros <-.
      apply (is_fresh (dom hp)). apply elem_of_dom. by rewrite H0.
  - unfold execute. by rewrite Hl.
Qed.

Lemma respond_frame h l req (hp : Heap) w res result l0 o0 :
  hp !! l0 = Some o0 → (respond h l req (hp, w, res) result).1.1 !! l0 = Some o0.
Proof.
  intros H0. unfold respond. destruct (hp !! l) as [opts|]; [|done].
  set (hp1 := <[fresh (dom hp) := _]> hp).
  assert (H1 : hp1 !! l0 = Some o0).
  { subst hp1. rewrite lookup_insert_ne; [done|]. intros <-.
    apply (is_fresh (dom hp)). apply elem_of_dom. by rewrite H0. }
  pose proof (execute_frame h (fresh (dom hp)) hp1 w l0 o0 H1) as H2.
  destruct (execute h (fresh (dom hp)) hp1 w) as [[hp2 w1] r]. simpl in H2.
  by destruct (observe r w1) as [w2 [e|calls|[|data|e]]].
Qed.

Lemma on_payload_frame h l req st args l0 o0 :
  st.1.1 !! l0 = Some o0 → (on_payload h l req st args).1.1 !! l0 = Some o0.
Proof.
  destruct st as [[hp w] res]. intros H0. unfold on_payload.
  destruct (truthy args.1); [done|]. by apply respond_frame.
Qed.

Lemma handle_request_frame h l req (hp : Heap) w l0 o0 :
  hp !! l0 = Some o0 → (handle_request h l req hp w).1.1 !! l0 = Some o0.
Proof.
  intros H0. unfold handle_request. destruct (decide _) as [Hct|Hct]; [|done].
  destruct (_getRequestPayload (body req)) as [calls|e]; [|done].
  assert (Hfold : ∀ st, st.1.1 !! l0 = Some o0 →
            (fold_left (on_payload h l req) calls st).1.1 !! l0 = Some o0).
  { induction calls as [|c calls IH]; intros st Hst; [done|].
    simpl. by apply IH, on_payload_frame. }
  specialize (Hfold (hp, w, fresh_res) H0).
  by destruct (fold_left _ _ _) as [[hp' w'] res].
Qed.

(** X20: serving requests never changes the options the listener was
    started with, nor any other object there was: each request works on
    copies, so that every request starts from the same options. *)
Theorem serve_keeps_options (h : Host) (l : nat) (reqs : list Request) (hp : Heap)
  (w : World) (l0 : nat) (o0 : Options) :
  hp !! l0 = Some o0 →
  (serve h l reqs hp w).1.2 !! l0 = Some o0.
Proof.
  revert hp w. induction reqs as [|req rest IH]; intros hp w H0; [done|].
  rewrite serve_cons.
  pose proof (handle_request_frame h l req hp w l0 o0 H0) as H1.
  destruct (handle_request h l req hp w) as [[hp' w'] [res|e]]; simpl in H1.
  - specialize (IH hp' w' H1).
    by destruct (serve h l rest hp' w') as [[[rs crash] hp''] w''].
  - done.
Qed.

Lemma serve_keeps_options_witness :
  (serve Sample.host 0
     [Sample.post (Some "application/json") Sample.body_event_x1;
      Sample.post (Some "application/json") Sample.body_event_zero]
     {[ 0%nat := Sample.func_options Sample.echo ]} Sample.world).1.2 !! 0%nat
  = Some (Sample.func_options Sample.echo).
Proof.
  apply serve_keeps_options. vm_compute. reflexivity.
Defined.

(** ** More on what a handler hands back *)

Section handed_back.

Variables (h : Host) (o : Options) (w : World).
Variables (client : jsval) (m : Module') (f : Handler) (ev : jsval).

Hypothesis Hclient : client_context o = Normal client.
Hypothesis Hfunc : lambdaFunc o = Some m.
Hypothesis Hpath : truthy_str (lambdaPath o) = false.
Hypothesis Hevent : resolve_event o = Normal ev.
Hypothesis Hexport : m !! handler_name o = Some f.

Let run : HandlerRun := f (env (staged_world h o w)) ev.

(** X21: a handler that makes no completion call and returns a plain
    value whose [then] is truthy fails the invocation: the call of
    [then], which is no function, throws a TypeError inside the [try],
    and the error goes to [fail]. *)
Theorem uncallable_then_fails (v : jsval) :
  sync_calls run = [] →
  finish run = Normal (Plain v) →
  truthy v = true →
  truthy (default VUndefined (get_prop v "then")) = true →
  ∃ inv w1,
    _executeSync h o w = (w1, Normal inv) ∧
    Context.delivered (context inv)
      = [(VError TypeError "result.then is not a function", VNull)] ∧
    wired inv = None.
Proof.
  intros Hcalls Hfinish Hv Hthen.
  destruct (new_context_pending h o client) as (Hp & Hd & Hf).
  rewrite (_executeSync_runs h o w client m f ev Hclient Hfunc Hpath Hevent Hexport).
  fold run. rewrite Hcalls, Hfinish. unfold apply_calls. simpl fold_left.
  unfold handle_result. rewrite Hv, Hthen.
  destruct (complete_first (Context._init_timeout (new_context h o client))
              (VError TypeError "result.then is not a function") VNull
              (staged_world h o w) Hp) as (_ & Hd' & _).
  rewrite Hd in Hd'. unfold Context.fail.
  destruct (Context.complete _ VNull
              (Context._init_timeout (new_context h o client)) (staged_world h o w))
    as [ctx4 w4].
  eexists _, _. split; [done|]. done.
Qed.

End handed_back.

Lemma uncallable_then_fails_witness :
  ∃ inv w1,
    _executeSync Sample.host
      (Sample.func_options (Sample.returning (VObj [("then", VNum 1 0)])))
      Sample.world = (w1, Normal inv) ∧
    Context.delivered (context inv)
      = [(VError TypeError "result.then is not a function", VNull)].
Proof.
  destruct (uncallable_then_fails Sample.host
              (Sample.func_options (Sample.returning (VObj [("then", VNum 1 0)])))
              Sample.world VNull
              {[ "handler" := Sample.returning (VObj [("then", VNum 1 0)]) ]}
              (Sample.returning (VObj [("then", VNum 1 0)])) VUndefined
              eq_refl eq_refl eq_refl eq_refl eq_refl
              (VObj [("then", VNum 1 0)]) eq_refl eq_refl eq_refl eq_refl)
    as (inv & w1 & Hrun & Hd & _).
  by exists inv, w1.
Defined.

(** X22: a handler, in memory or loaded from a file, that makes no
    completion call and returns a future leaves the invocation pending
    when the scheduler returns.  The settlement of the future, when it
    is the first thing the event loop brings, is the outcome: on
    fulfilment the callback gets [null] and the value, on rejection it
    gets the reason as its first argument; whatever comes later changes
    nothing. *)
Theorem future_settlement_is_outcome (h : Host) (o : Options) (w w0 : World)
  (client : jsval) (run : HandlerRun) (s : settlement) (rest : list async_event) :
  client_context o = Normal client →
  both_sources o = false →
  prepare h o w = (w0, Normal (Some run)) →
  sync_calls run = [] →
  finish run = Normal (Future s) →
  later run = ASettle :: rest →
  ∃ inv w1,
    _executeSync h o w = (w1, Normal inv) ∧
    Context.completion_state (context inv) = Context.Pending ∧
    match s with
    | Fulfills v => Context.delivered (context (drain inv w1).1) = [(VNull, v)]
    | Rejects e => map fst (Context.delivered (context (drain inv w1).1)) = [e]
    end.
Proof.
  intros Hclient Hboth Hprepare Hcalls Hfinish Hlater.
  pose proof (new_context_fresh h o client) as Hp.
  assert (Hd : Context.delivered (Context._init_timeout (new_context h o client)) = [])
    by (unfold new_context; by destruct (callback o)).
  rewrite (_executeSync_prepared h o w w0 client run Hclient Hboth Hprepare).
  rewrite Hcalls, Hfinish, Hlater. unfold apply_calls. simpl fold_left.
  unfold handle_result. eexists _, _. split; [done|]. split; [done|].
  unfold drain, schedule, scheduled. cbn [context wired agenda].
  change ((ASettle :: rest) ++ [AExpire]) with (ASettle :: (rest ++ [AExpire])).
  rewrite run_events_cons.
  set (first := async_step ASettle _ _).
  assert (Hfirst : ∃ e v,
            Context.completion_state (context first.1) = Context.Completed e v ∧
            Context.delivered (context first.1) = [(e, v)] ∧
            match s with
            | Fulfills v' => (e, v) = (VNull, v')
            | Rejects e' => e = e'
            end).
  { subst first. unfold async_step. cbn [wired context].
    destruct s as [v|e].
    - destruct (complete_first (Context._init_timeout (new_context h o client))
                  VNull v w0 Hp) as (Hs & Hd' & _).
      rewrite Hd in Hd'. unfold Context.succeed.
      destruct (Context.complete VNull v _ _) as [c1 w1]. by exists VNull, v.
    - destruct (complete_first (Context._init_timeout (new_context h o client))
                  e VNull w0 Hp) as (Hs & Hd' & _).
      rewrite Hd in Hd'. unfold Context.fail.
      destruct (Context.complete e VNull _ _) as [c1 w1]. by eexists e, _. }
  destruct Hfirst as (e & v & Hs & Hd1 & Heq).
  destruct (run_events_stable (rest ++ [AExpire]) first.1 e v first.2 Hs) as [-> _].
  rewrite Hd1. destruct s as [v'|e']; [by injection Heq as -> ->|by subst].
Qed.

Lemma future_settlement_is_outcome_witness :
  ∃ inv w1,
    _executeSync Sample.host (Sample.func_options (Sample.resolving (VStr "v")))
      Sample.world = (w1, Normal inv) ∧
    Context.delivered (context (drain inv w1).1) = [(VNull, VStr "v")].
Proof.
  destruct (future_settlement_is_outcome Sample.host
              (Sample.func_options (Sample.resolving (VStr "v")))
              Sample.world _ VNull _ (Fulfills (VStr "v")) []
              eq_refl eq_refl eq_refl eq_refl eq_refl eq_refl)
    as (inv & w1 & Hrun & _ & Hd).
  by exists inv, w1.
Defined.
